(** * Block layer of the sky event store: a shallow embedding of [src/block.c]

    The C functions of [block.c] are rendered as computations over an
    explicit store.  Pointers are addresses in [Z] with [0] for [NULL];
    structures live in typed regions of the store, so that dereferencing
    an address that holds no object of the expected type is a fault.
    Fixed-width integers are [Z] with their wrap-around written out. *)

From Stdlib Require Import ZArith Lia List Btauto.
From stdpp Require Import base option gmap list infinite.
From coqutil Require Import Byte Word.LittleEndianList.

Local Open Scope Z_scope.

(** ** Machine integers *)

Module Int.

(** [uint32_t], [uint64_t] / [size_t] (LP64) and [int64_t]. *)
Definition uint32 (x : Z) : Z := x mod 2 ^ 32.
Definition uint64 (x : Z) : Z := x mod 2 ^ 64.

(** Conversion of a 64-bit pattern to [int64_t] (two's complement). *)
Definition int64 (x : Z) : Z :=
  let u := uint64 x in if u <? 2 ^ 63 then u else u - 2 ^ 64.

Definition is_uint32 (x : Z) : Prop := 0 <= x < 2 ^ 32.
Definition is_uint64 (x : Z) : Prop := 0 <= x < 2 ^ 64.
Definition is_int64 (x : Z) : Prop := - 2 ^ 63 <= x < 2 ^ 63.

End Int.

(** ** Byte order *)

Module Endian.

(** The byte order of the host the code is compiled for. *)
Inductive byte_order := LittleEndian | BigEndian.

(** Object representation of a 64-bit integer in host memory: what
    [memmove] copies from or to the address of a [uint64_t]/[int64_t]
    variable.  Bit patterns are taken modulo [2^64]. *)
Definition repr64 (host : byte_order) (x : Z) : list byte :=
  match host with
  | LittleEndian => le_split 8 x
  | BigEndian => rev (le_split 8 x)
  end.

Definition value64 (host : byte_order) (bs : list byte) : Z :=
  match host with
  | LittleEndian => le_combine bs
  | BigEndian => le_combine (rev bs)
  end.

(** Modelled from the spec: [endian.h] is not part of the sources.  The
    swap of the eight bytes of a 64-bit pattern, by which the header
    codec goes between host and network byte order on a little-endian
    host. *)
Definition bswap64 (x : Z) : Z :=
  Z.lor (Z.shiftl (Z.land x 255) 56)
 (Z.lor (Z.shiftl (Z.land (Z.shiftr x 8) 255) 48)
 (Z.lor (Z.shiftl (Z.land (Z.shiftr x 16) 255) 40)
 (Z.lor (Z.shiftl (Z.land (Z.shiftr x 24) 255) 32)
 (Z.lor (Z.shiftl (Z.land (Z.shiftr x 32) 255) 24)
 (Z.lor (Z.shiftl (Z.land (Z.shiftr x 40) 255) 16)
 (Z.lor (Z.shiftl (Z.land (Z.shiftr x 48) 255) 8)
        (Z.land (Z.shiftr x 56) 255))))))).

(** Modelled from the spec: [htonll] of [endian.h], host to network
    (big-endian) byte order: the byte swap on a little-endian host, the
    64-bit pattern itself on a big-endian one. *)
Definition htonll (host : byte_order) (x : Z) : Z :=
  match host with
  | LittleEndian => bswap64 x
  | BigEndian => Int.uint64 x
  end.

(** Modelled from the spec: [ntohll] of [endian.h], network to host
    byte order, the same conversion read the other way. *)
Definition ntohll (host : byte_order) (x : Z) : Z := htonll host x.

(** The wire format of the spec, stated independently of the code: the
    eight bytes of [x], most significant first. *)
Definition big_endian_8 (x : Z) : list byte :=
  map (fun i => byte.of_Z (x / 2 ^ (8 * i))) [7; 6; 5; 4; 3; 2; 1; 0].

Definition of_big_endian (bs : list byte) : Z :=
  fold_left (fun acc b => 256 * acc + byte.unsigned b) bs 0.

End Endian.

(** ** Structures *)

(** Modelled from the spec: [block.h], [data_file.h] and [event.h] are
    not part of the sources.  The fields and their widths are those of
    the spec's data model; a pointer field holds an address, [0] when
    null. *)
Record sky_block := mk_block {
  data_file : Z;        (* sky_data_file *data_file *)
  index : Z;            (* uint32_t *)
  min_object_id : Z;    (* sky_object_id_t, unsigned 64 bits *)
  max_object_id : Z;
  min_timestamp : Z;    (* sky_timestamp_t, signed 64 bits *)
  max_timestamp : Z;
  spanned : bool
}.

(** Modelled from the spec: the data file of [data_file.h], with its
    block size, block count, array of block descriptors and mapped
    buffer. *)
Record sky_data_file := mk_data_file {
  block_size : Z;       (* size_t *)
  blocks : list Z;      (* sky_block **blocks: the array of block pointers *)
  block_count : Z;      (* uint32_t *)
  data : Z              (* void *data: base of the mapping *)
}.

(** Modelled from the spec: the event of [event.h].  The block layer
    reads its object id; [encoded_size] is the byte count the event
    encoder reports for it. *)
Record sky_event := mk_event {
  object_id : Z;
  timestamp : Z;
  encoded_size : Z
}.

(** Modelled from the spec: one packed path record of a block, as the
    path iterator yields it: the object it belongs to, where it starts
    and how many bytes it takes. *)
Record sky_path := mk_path {
  path_object_id : Z;
  path_ptr : Z;
  path_length : Z
}.

Definition set_min_object_id (v : Z) (b : sky_block) : sky_block :=
  mk_block (data_file b) (index b) v (max_object_id b)
           (min_timestamp b) (max_timestamp b) (spanned b).
Definition set_max_object_id (v : Z) (b : sky_block) : sky_block :=
  mk_block (data_file b) (index b) (min_object_id b) v
           (min_timestamp b) (max_timestamp b) (spanned b).
Definition set_min_timestamp (v : Z) (b : sky_block) : sky_block :=
  mk_block (data_file b) (index b) (min_object_id b) (max_object_id b)
           v (max_timestamp b) (spanned b).
Definition set_max_timestamp (v : Z) (b : sky_block) : sky_block :=
  mk_block (data_file b) (index b) (min_object_id b) (max_object_id b)
           (min_timestamp b) v (spanned b).

(** A block whose fields fit their C types. *)
Definition block_in_range (b : sky_block) : Prop :=
  Int.is_uint32 (index b) /\
  Int.is_uint64 (min_object_id b) /\ Int.is_uint64 (max_object_id b) /\
  Int.is_int64 (min_timestamp b) /\ Int.is_int64 (max_timestamp b).

(** ** The store *)

(** Memory is split in typed regions, each a finite map from addresses:
    the block and data file descriptors, the events, the path records a
    block currently holds, raw bytes (pack/unpack buffers), and the
    integer or pointer variables whose address a caller passes as an
    output slot. *)
Record store := mk_store {
  block_at : gmap Z sky_block;
  data_file_at : gmap Z sky_data_file;
  event_at : gmap Z sky_event;
  paths_at : gmap Z (list sky_path);
  byte_at : gmap Z byte;
  cell_at : gmap Z Z
}.

Definition set_block_at (m : gmap Z sky_block) (s : store) : store :=
  mk_store m (data_file_at s) (event_at s) (paths_at s) (byte_at s) (cell_at s).
Definition set_byte_at (m : gmap Z byte) (s : store) : store :=
  mk_store (block_at s) (data_file_at s) (event_at s) (paths_at s) m (cell_at s).
Definition set_cell_at (m : gmap Z Z) (s : store) : store :=
  mk_store (block_at s) (data_file_at s) (event_at s) (paths_at s) (byte_at s) m.

(** The store after [*p = v] on a caller's variable. *)
Definition stored (p v : Z) (s : store) : store :=
  set_cell_at (<[p := v]> (cell_at s)) s.

(** ** Computations *)

(** A call returns a value and a store, or faults on a dereference of an
    address that holds no object of the type read or written (null,
    dangling or uninitialised pointer), or is cut off when a loop has
    used up the steps it was given.  In the last two cases the outcome
    keeps the store reached at that point. *)
Inductive outcome (A : Type) : Type :=
  | Ret (a : A) (s : store)
  | Fault (s : store)
  | OutOfFuel (s : store).
Arguments Ret {A} a s.
Arguments Fault {A} s.
Arguments OutOfFuel {A} s.

Definition final {A} (o : outcome A) : store :=
  match o with
  | Ret _ s | Fault s | OutOfFuel s => s
  end.

Definition M (A : Type) : Type := store -> outcome A.

#[global] Instance M_ret : MRet M := fun A a s => Ret a s.
#[global] Instance M_bind : MBind M := fun A B f m s =>
  match m s with
  | Ret a s' => f a s'
  | Fault s' => Fault s'
  | OutOfFuel s' => OutOfFuel s'
  end.

Definition fault {A} : M A := fun s => Fault s.
Definition out_of_fuel {A} : M A := fun s => OutOfFuel s.

(** [*p] read as an object of the given region. *)
Definition load {A} (region : store -> gmap Z A) (p : Z) : M A := fun s =>
  if p =? 0 then Fault s
  else match region s !! p with
       | Some a => Ret a s
       | None => Fault s
       end.

(** [*p = f( *p )] on a block descriptor. *)
Definition modify_block (p : Z) (f : sky_block -> sky_block) : M unit := fun s =>
  if p =? 0 then Fault s
  else match block_at s !! p with
       | Some b => Ret tt (set_block_at (<[p := f b]> (block_at s)) s)
       | None => Fault s
       end.

(** [*p = v] on an integer or pointer variable. *)
Definition assign (p v : Z) : M unit := fun s =>
  if p =? 0 then Fault s
  else match cell_at s !! p with
       | Some _ => Ret tt (stored p v s)
       | None => Fault s
       end.

(** [a[i]] on an array of pointers; reading past its end is a fault. *)
Definition array_get (a : list Z) (i : Z) : M Z := fun s =>
  match a !! Z.to_nat i with
  | Some p => Ret p s
  | None => Fault s
  end.

(** A local variable whose address is taken: it occupies a fresh cell
    for the time of [body]. *)
Definition with_local {A} (body : Z -> M A) : M A := fun s =>
  let a := fresh ({[0]} ∪ dom (cell_at s)) in
  let leave s' := set_cell_at (delete a (cell_at s')) s' in
  match body a (set_cell_at (<[a := 0]> (cell_at s)) s) with
  | Ret r s' => Ret r (leave s')
  | Fault s' => Fault (leave s')
  | OutOfFuel s' => OutOfFuel (leave s')
  end.

(** Raw bytes at consecutive addresses. *)
Fixpoint peek (m : gmap Z byte) (p : Z) (n : nat) : option (list byte) :=
  match n with
  | O => Some []
  | S n =>
      match m !! p, peek m (p + 1) n with
      | Some b, Some bs => Some (b :: bs)
      | _, _ => None
      end
  end.

Fixpoint poke (m : gmap Z byte) (p : Z) (bs : list byte) : option (gmap Z byte) :=
  match bs with
  | [] => Some m
  | b :: bs =>
      match m !! p with
      | Some _ => poke (<[p := b]> m) (p + 1) bs
      | None => None
      end
  end.

(** Modelled from the spec: [mem.h] is not part of the sources.
    [memwrite(PTR, SRC, SZ, MSG)] copies [SZ] bytes from [SRC] to the
    cursor and advances the cursor, which is the value returned here. *)
Definition memwrite (ptr : Z) (src : list byte) : M Z := fun s =>
  match poke (byte_at s) ptr src with
  | Some m => Ret (ptr + Z.of_nat (length src)) (set_byte_at m s)
  | None => Fault s
  end.

(** Modelled from the spec: [memread(PTR, DEST, SZ, MSG)] of [mem.h]
    copies [SZ] bytes from the cursor to [DEST] and advances the cursor;
    the bytes and the advanced cursor are returned here, and the caller
    stores the bytes in [DEST]. *)
Definition memread (ptr : Z) (sz : nat) : M (list byte * Z) := fun s =>
  match peek (byte_at s) ptr sz with
  | Some bs => Ret (bs, ptr + Z.of_nat sz) s
  | None => Fault s
  end.

(** ** The path iterator *)

(** Modelled from the spec: [path_iterator.c] is not part of the
    sources.  An iterator stands on the first of the path records that
    remain to be visited in the block it is bound to. *)
Record sky_path_iterator := mk_path_iterator {
  remaining : list sky_path
}.

(** Modelled from the spec: [iterator->eof], the iterator has reached
    the end of the block. *)
Definition eof (it : sky_path_iterator) : bool :=
  match remaining it with
  | [] => true
  | _ :: _ => false
  end.

(** Modelled from the spec: [iterator->current_object_id], the object
    of the record the iterator stands on. *)
Definition current_object_id (it : sky_path_iterator) : Z :=
  match remaining it with
  | [] => 0
  | p :: _ => path_object_id p
  end.

(** Modelled from the spec: a new iterator, bound to no block. *)
Definition sky_path_iterator_create : M sky_path_iterator :=
  mret (mk_path_iterator []).

(** Modelled from the spec: binding an iterator to a block puts it on
    the block's first path record and returns [0]; it returns [-1] and
    leaves the iterator alone when the block has no path area to read.
    The block is only read. *)
Definition sky_path_iterator_set_block (it : sky_path_iterator) (block : Z)
  : M (Z * sky_path_iterator) := fun s =>
  match paths_at s !! block with
  | Some ps => Ret (0, mk_path_iterator ps) s
  | None => Ret (-1, it) s
  end.

(** Modelled from the spec: the pointer to the record the iterator
    stands on is stored in [*ret]; there is none at the end of the
    block. *)
Definition sky_path_iterator_get_ptr (it : sky_path_iterator) (ret : Z) : M Z :=
  match remaining it with
  | [] => mret (-1)
  | p :: _ => assign ret (path_ptr p);; mret 0
  end.

(** Modelled from the spec: the step that moves an iterator to the next
    record.  [block.c] does not call it. *)
Definition sky_path_iterator_next (it : sky_path_iterator) : sky_path_iterator :=
  mk_path_iterator (tail (remaining it)).

(** Modelled from the spec: releasing an iterator.  The argument is
    [None] for a pointer variable that was never assigned, whose value
    is indeterminate. *)
Definition sky_path_iterator_free (it : option sky_path_iterator) : M unit :=
  match it with
  | Some _ => mret tt
  | None => fault
  end.

(** ** block.c *)

(** Modelled from the spec: [dbg.h] is not part of the sources.
    [check(A, M)] jumps to the function's [error:] label when [A] is
    false; a function body is therefore a chain of tests, each with the
    error handler as its other branch. *)
Definition check {A} (cond : bool) (error : M A) (rest : M A) : M A :=
  if cond then rest else error.

Notation "'check!' c 'or' e ; k" := (check c e k)
  (at level 100, c at level 9, e at level 9, k at level 200,
   format "'check!'  c  'or'  e ;  '//' k").

Section Serialization.

(** The byte order of the host; the wire format does not depend on it. *)
Variable host : Endian.byte_order.

(** [int sky_block_pack(sky_block *block, void *ptr, size_t *sz)] *)
Definition sky_block_pack (block ptr sz : Z) : M Z :=
  let start := ptr in
  let error : M Z := mret (-1) in
  check! (negb (block =? 0)) or error;
  check! (negb (ptr =? 0)) or error;
  b ← load block_at block;
  (* Write object id range. *)
  let min_object_id' := Endian.htonll host (min_object_id b) in
  let max_object_id' := Endian.htonll host (max_object_id b) in
  ptr ← memwrite ptr (Endian.repr64 host min_object_id');
  ptr ← memwrite ptr (Endian.repr64 host max_object_id');
  (* Write timestamp range. *)
  let min_timestamp' := Int.int64 (Endian.htonll host (min_timestamp b)) in
  let max_timestamp' := Int.int64 (Endian.htonll host (max_timestamp b)) in
  ptr ← memwrite ptr (Endian.repr64 host min_timestamp');
  ptr ← memwrite ptr (Endian.repr64 host max_timestamp');
  (* Store number of bytes written. *)
  (if negb (sz =? 0) then assign sz (Int.uint64 (ptr - start)) else mret tt);;
  mret 0.

(** [int sky_block_unpack(sky_block *block, void *ptr, size_t *sz)].
    Each field is first filled with the bytes at the cursor and then
    replaced by its conversion to host order. *)
Definition sky_block_unpack (block ptr sz : Z) : M Z :=
  let start := ptr in
  let error : M Z := assign sz 0;; mret (-1) in
  check! (negb (block =? 0)) or error;
  check! (negb (ptr =? 0)) or error;
  '(raw, ptr) ← memread ptr 8;
  modify_block block (set_min_object_id (Endian.value64 host raw));;
  modify_block block
    (fun b => set_min_object_id (Endian.ntohll host (min_object_id b)) b);;
  '(raw, ptr) ← memread ptr 8;
  modify_block block (set_max_object_id (Endian.value64 host raw));;
  modify_block block
    (fun b => set_max_object_id (Endian.ntohll host (max_object_id b)) b);;
  '(raw, ptr) ← memread ptr 8;
  modify_block block (set_min_timestamp (Int.int64 (Endian.value64 host raw)));;
  modify_block block
    (fun b => set_min_timestamp
                (Int.int64 (Endian.ntohll host (min_timestamp b))) b);;
  '(raw, ptr) ← memread ptr 8;
  modify_block block (set_max_timestamp (Int.int64 (Endian.value64 host raw)));;
  modify_block block
    (fun b => set_max_timestamp
                (Int.int64 (Endian.ntohll host (max_timestamp b))) b);;
  (if negb (sz =? 0) then assign sz (Int.uint64 (ptr - start)) else mret tt);;
  mret 0.

End Serialization.

(** [int sky_block_get_offset(sky_block *block, size_t *offset)] *)
Definition sky_block_get_offset (block offset : Z) : M Z :=
  let error : M Z := assign offset 0;; mret (-1) in
  check! (negb (block =? 0)) or error;
  b ← load block_at block;
  check! (negb (data_file b =? 0)) or error;
  df ← load data_file_at (data_file b);
  check! (negb (block_size df =? 0)) or error;
  assign offset (Int.uint64 (block_size df * index b));;
  mret 0.

(** [int sky_block_get_ptr(sky_block *block, void **ptr)] *)
Definition sky_block_get_ptr (block ptr : Z) : M Z :=
  let error : M Z := assign ptr 0;; mret (-1) in
  check! (negb (block =? 0)) or error;
  b ← load block_at block;
  check! (negb (data_file b =? 0)) or error;
  df ← load data_file_at (data_file b);
  check! (negb (data df =? 0)) or error;
  (* Retrieve the offset. *)
  with_local (fun offset =>
    rc ← sky_block_get_offset block offset;
    check! (rc =? 0) or error;
    (* Calculate pointer based on data pointer. *)
    off ← load cell_at offset;
    assign ptr (Int.uint64 (data df + off));;
    mret 0).

(** The loop of [sky_block_get_span_count]: [index] is the value before
    the increment; the result is the index the loop stops at. *)
Fixpoint span_loop (fuel : nat) (df : sky_data_file) (object_id index : Z) : M Z :=
  match fuel with
  | O => out_of_fuel
  | S fuel =>
      let index := Int.uint32 (index + 1) in
      if index >? Int.uint32 (block_count df - 1) then mret index
      else
        p ← array_get (blocks df) index;
        next ← load block_at p;
        if negb (object_id =? min_object_id next) then mret index
        else span_loop fuel df object_id index
  end.

(** [int sky_block_get_span_count(sky_block *block, uint32_t *count)] *)
Definition sky_block_get_span_count (fuel : nat) (block count : Z) : M Z :=
  let error : M Z := assign count 0;; mret (-1) in
  check! (negb (block =? 0)) or error;
  b ← load block_at block;
  check! (negb (data_file b =? 0)) or error;
  check! (negb (count =? 0)) or error;
  df ← load data_file_at (data_file b);
  (if negb (spanned b) then
     (* If this block is not spanned then return 1. *)
     assign count 1
   else
     (* Otherwise calculate the span count. *)
     index' ← span_loop fuel df (min_object_id b) (index b);
     (* Assign count back to caller's provided address. *)
     assign count (Int.uint32 (index' - index b)));;
  mret 0.

(** The loop shared by [sky_block_split_with_event] and
    [sky_block_get_path_ptr]:
    [while(!iterator->eof) { if(object_id == iterator->current_object_id)
    { rc = sky_path_iterator_get_ptr(iterator, ret); check(rc == 0, ...);
    break; } }].  The body calls nothing that moves the iterator.  The
    result is [0] when the loop is left normally and [-1] when the
    [check] jumps to [error:]. *)
Fixpoint path_loop (fuel : nat) (it : sky_path_iterator) (object_id ret : Z) : M Z :=
  match fuel with
  | O => out_of_fuel
  | S fuel =>
      if eof it then mret 0
      else if object_id =? current_object_id it then
        rc ← sky_path_iterator_get_ptr it ret;
        mret (if rc =? 0 then 0 else -1)
      else path_loop fuel it object_id ret
  end.

(** [int sky_block_split_with_event(sky_block *block, sky_event *event,
    sky_block **ret)] *)
Definition sky_block_split_with_event (fuel : nat) (block event ret : Z) : M Z :=
  let error : M Z := mret (-1) in
  check! (negb (block =? 0)) or error;
  check! (negb (event =? 0)) or error;
  (* Initialize the return value. *)
  assign ret 0;;
  (* Create a path iterator and point it at the block. *)
  it ← sky_path_iterator_create;
  '(rc, it) ← sky_path_iterator_set_block it block;
  check! (rc =? 0) or error;
  with_local (fun ptr =>
    ev ← load event_at event;
    (* Loop over paths in block. *)
    rc ← path_loop fuel it (object_id ev) ptr;
    check! (rc =? 0) or error;
    sky_path_iterator_free (Some it);;
    mret 0).

(** [int sky_block_get_path_ptr(sky_block *block, sky_object_id_t
    object_id, void **ret)].  The [error:] handler releases [iterator],
    which the first two checks reach before it is assigned. *)
Definition sky_block_get_path_ptr (fuel : nat) (block object_id ret : Z) : M Z :=
  let error (iterator : option sky_path_iterator) : M Z :=
    sky_path_iterator_free iterator;; assign ret 0;; mret (-1) in
  check! (negb (block =? 0)) or (error None);
  check! (0 <? object_id) or (error None);
  (* Create a path iterator and point it at the block. *)
  it ← sky_path_iterator_create;
  '(rc, it) ← sky_path_iterator_set_block it block;
  check! (rc =? 0) or (error (Some it));
  (* Initialize the return value. *)
  assign ret 0;;
  (* Loop over iterator until we find the path matching the object id. *)
  rc ← path_loop fuel it object_id ret;
  check! (rc =? 0) or (error (Some it));
  sky_path_iterator_free (Some it);;
  mret 0.

(** [int sky_block_add_event(sky_block *block, sky_event *event)]: past
    its two checks the body holds comments only. *)
Definition sky_block_add_event (block event : Z) : M Z :=
  let error : M Z := mret (-1) in
  check! (negb (block =? 0)) or error;
  check! (negb (event =? 0)) or error;
  mret 0.

(** *** Lifecycle *)

(** The descriptor [calloc] hands out: every byte of it zero. *)
Definition zeroed : sky_block := mk_block 0 0 0 0 0 0 false.

Definition set_data_file (v : Z) (b : sky_block) : sky_block :=
  mk_block v (index b) (min_object_id b) (max_object_id b)
           (min_timestamp b) (max_timestamp b) (spanned b).

(** [calloc(sizeof(sky_block), 1)]: when memory is [available], a zeroed
    descriptor at an address that held none so far; otherwise [NULL]. *)
Definition calloc_block (available : bool) : M Z := fun s =>
  if available then
    let p := fresh ({[0]} ∪ dom (block_at s)) in
    Ret p (set_block_at (<[p := zeroed]> (block_at s)) s)
  else Ret 0 s.

(** [free(block)]: the descriptor at [p] is gone; releasing an address
    that holds none is a fault. *)
Definition free_block (p : Z) : M unit := fun s =>
  match block_at s !! p with
  | Some _ => Ret tt (set_block_at (delete p (block_at s)) s)
  | None => Fault s
  end.

(** [void sky_block_free(sky_block *block)] *)
Definition sky_block_free (block : Z) : M unit :=
  if negb (block =? 0) then
    (* memset(block, 0, sizeof( *block)); *)
    modify_block block (fun _ => zeroed);;
    free_block block
  else mret tt.

(** [sky_block *sky_block_create(sky_data_file *data_file)];
    [check_mem(block)] is [check(block, ...)]. *)
Definition sky_block_create (available : bool) (data_file : Z) : M Z :=
  let error (block : Z) : M Z := sky_block_free block;; mret 0 in
  block ← calloc_block available;
  check! (negb (block =? 0)) or (error block);
  modify_block block (set_data_file data_file);;
  mret block.

(** ** Predicates of the statements *)

(** The block array holds at position [i] a pointer to a block whose
    [min_object_id] is [id]. *)
Definition block_has_id (s : store) (df : sky_data_file) (i id : Z) : Prop :=
  exists p b,
    blocks df !! Z.to_nat i = Some p /\ p <> 0 /\
    block_at s !! p = Some b /\ min_object_id b = id.

(** The [n] addresses from [p] on hold bytes. *)
Definition mapped (m : gmap Z byte) (p : Z) (n : nat) : Prop :=
  forall i, 0 <= i < Z.of_nat n -> is_Some (m !! (p + i)).

(** Memory after [bs] has been copied to [p]. *)
Fixpoint blit (m : gmap Z byte) (p : Z) (bs : list byte) : gmap Z byte :=
  match bs with
  | [] => m
  | b :: bs => blit (<[p := b]> m) (p + 1) bs
  end.

(** The persisted header of the spec: the four fields as 8-byte
    big-endian integers, in the order of the layout table. *)
Definition wire_header (b : sky_block) : list byte :=
  Endian.big_endian_8 (min_object_id b) ++
  Endian.big_endian_8 (max_object_id b) ++
  Endian.big_endian_8 (min_timestamp b) ++
  Endian.big_endian_8 (max_timestamp b).

(** The descriptor [d] after the header fields have been replaced by
    what 32 bytes of that layout hold. *)
Definition decoded (bs : list byte) (d : sky_block) : sky_block :=
  mk_block (data_file d) (index d)
    (Endian.of_big_endian (take 8 bs))
    (Endian.of_big_endian (take 8 (drop 8 bs)))
    (Int.int64 (Endian.of_big_endian (take 8 (drop 16 bs))))
    (Int.int64 (Endian.of_big_endian (take 8 (drop 24 bs))))
    (spanned d).

(** The store after a byte count has been reported through an optional
    output slot. *)
Definition reported (sz n : Z) (s : store) : store :=
  if sz =? 0 then s else stored sz n s.

(** [s'] differs from [s] at most in the caller variables selected by
    [X]: the block and data file descriptors, the events, the path
    records and raw memory are the same. *)
Definition same_but (X : Z -> Prop) (s s' : store) : Prop :=
  block_at s' = block_at s /\
  data_file_at s' = data_file_at s /\
  event_at s' = event_at s /\
  paths_at s' = paths_at s /\
  byte_at s' = byte_at s /\
  forall a, ~ X a -> cell_at s' !! a = cell_at s !! a.

(** A computation that, however it ends, has written to variables of
    [X] only. *)
Definition writes_only {A} (X : Z -> Prop) (m : M A) : Prop :=
  forall s, same_but X s (final (m s)).

(** The bytes a block occupies: its header and its path records. *)
Definition occupied (ps : list sky_path) : Z :=
  32 + fold_right (fun p acc => path_length p + acc) 0 ps.

(** Every entry of the block array below [block_count] points to a
    block descriptor. *)
Definition blocks_valid (s : store) (df : sky_data_file) : Prop :=
  forall j, 0 <= j < block_count df ->
    exists p b, blocks df !! Z.to_nat j = Some p /\ p <> 0 /\
                block_at s !! p = Some b.

(** ** A small data file

    Four blocks of 64 bytes mapped at 4096.  Block 0 holds the paths of
    objects 5, 9 and 20 and is full (32 bytes of header, 32 of paths);
    blocks 1 and 2 are a span for object 30; block 3 starts at object
    40.  A zeroed 32-byte buffer lies at 5000; the buffer at 6000 holds a
    header whose minima exceed its maxima.  Two caller variables at 1000
    and 1001 hold the stale value 77.  The event at 600 is larger than a
    block, the one at 700 is not.  The descriptor at 800 belongs to no
    data file. *)
Module Example.

Definition file : Z := 100.
Definition block0 : Z := 200.
Definition block1 : Z := 300.
Definition block2 : Z := 400.
Definition block3 : Z := 500.
Definition event : Z := 600.
Definition event' : Z := 700.
Definition orphan : Z := 800.
Definition slot : Z := 1000.
Definition slot' : Z := 1001.
Definition buffer : Z := 5000.
Definition buffer' : Z := 6000.

Definition header : sky_block := mk_block file 0 5 20 (-10) 90 false.

Definition inverted : list byte :=
  Endian.big_endian_8 9 ++ Endian.big_endian_8 3 ++
  Endian.big_endian_8 5 ++ Endian.big_endian_8 (-1).

Definition at_addresses (base : Z) (bs : list byte) : list (Z * byte) :=
  imap (fun i b => (base + Z.of_nat i, b)) bs.

Definition st : store := mk_store
  (list_to_map
     [(block0, header);
      (block1, mk_block file 1 30 30 100 200 true);
      (block2, mk_block file 2 30 30 201 300 true);
      (block3, mk_block file 3 40 50 1 2 false);
      (orphan, mk_block 0 0 0 0 0 0 false)])
  {[ file := mk_data_file 64 [block0; block1; block2; block3] 4 4096 ]}
  (list_to_map [(event, mk_event 9 50 100); (event', mk_event 7 60 16)])
  {[ block0 := [mk_path 5 4128 10; mk_path 9 4138 12; mk_path 20 4150 10] ]}
  (list_to_map (at_addresses buffer (replicate 32 Byte.x00) ++
                at_addresses buffer' inverted))
  (list_to_map [(slot, 77); (slot', 77)]).

(** A file whose blocks are [2^63] bytes long, and its block 2. *)
Definition huge : store := mk_store
  (list_to_map
     [(block0, mk_block file 0 1 1 0 0 false);
      (block1, mk_block file 1 2 2 0 0 false);
      (block2, mk_block file 2 3 3 0 0 false)])
  {[ file := mk_data_file (2 ^ 63) [block0; block1; block2] 3 4096 ]}
  ∅ ∅ ∅
  (list_to_map [(slot, 77); (slot', 77)]).

End Example.

(** ** A data file with one empty block

    One block of 64 bytes that holds no path record, and an event of
    100 bytes for object 9.  No other block and no other path area
    exists. *)
Module Vacant.

Definition file : Z := 100.
Definition block : Z := 200.
Definition event : Z := 600.
Definition slot : Z := 1000.

Definition st : store := mk_store
  {[ block := mk_block file 0 0 0 0 0 false ]}
  {[ file := mk_data_file 64 [block] 1 4096 ]}
  {[ event := mk_event 9 50 100 ]}
  {[ block := [] ]}
  ∅
  {[ slot := 77 ]}.

End Vacant.

(** * Properties *)

(** ** Machine integers *)

Section IntFacts.
Import Int.

Lemma uint64_range x : is_uint64 (uint64 x).
Proof. unfold is_uint64, uint64. apply Z.mod_pos_bound. lia. Qed.

Lemma uint32_range x : is_uint32 (uint32 x).
Proof. unfold is_uint32, uint32. apply Z.mod_pos_bound. lia. Qed.

Lemma uint64_id x : is_uint64 x -> uint64 x = x.
Proof. unfold is_uint64, uint64. intros H. apply Z.mod_small. lia. Qed.

Lemma uint32_id x : is_uint32 x -> uint32 x = x.
Proof. unfold is_uint32, uint32. intros H. apply Z.mod_small. lia. Qed.

Lemma int64_range x : is_int64 (int64 x).
Proof.
  unfold is_int64, int64. pose proof (uint64_range x) as H.
  unfold is_uint64 in H. destruct (Z.ltb_spec (uint64 x) (2 ^ 63)); lia.
Qed.

(** Going through the unsigned pattern and back is the identity on
    [int64_t]: this is what an [int64_t] assigned from [htonll] and fed
    back to [ntohll] relies on. *)
Lemma int64_uint64 x : is_int64 x -> int64 (uint64 x) = x.
Proof.
  unfold is_int64, int64, uint64. intros H.
  rewrite Z.mod_mod by lia.
  destruct (Z_lt_le_dec x 0) as [Hneg | Hpos].
  - assert (Hm : x mod 2 ^ 64 = x + 2 ^ 64).
    { symmetry. apply (Z.mod_unique_pos _ _ (-1)); lia. }
    rewrite Hm. destruct (Z.ltb_spec (x + 2 ^ 64) (2 ^ 63)); lia.
  - rewrite Z.mod_small by lia.
    destruct (Z.ltb_spec x (2 ^ 63)); lia.
Qed.

End IntFacts.

(** ** The code's conversions agree with the wire format *)

Ltac fold_Z_sums :=
  repeat match goal with
  | |- context [Z.pos ?a + Z.pos ?b] =>
      let v := eval cbv in (Z.pos a + Z.pos b) in
      change (Z.pos a + Z.pos b) with v
  end.

Section EndianFacts.
Import Endian.

Lemma length_rev_le_split n x : length (rev (le_split n x)) = n.
Proof. rewrite length_rev. apply length_le_split. Qed.

(** Only the low 64 bits of a value reach its eight bytes. *)
Lemma le_split_uint64 x : le_split 8 (Int.uint64 x) = le_split 8 x.
Proof.
  unfold Int.uint64. change 64 with (Z.of_nat 8 * 8).
  rewrite <- le_combine_split.
  rewrite <- (length_le_split 8 x) at 1. apply split_le_combine.
Qed.

Lemma le_split_int64 x : le_split 8 (Int.int64 x) = le_split 8 x.
Proof.
  rewrite <- (le_split_uint64 (Int.int64 x)), <- (le_split_uint64 x).
  f_equal. unfold Int.int64.
  destruct (Z.ltb_spec (Int.uint64 x) (2 ^ 63)) as [_ | _].
  - unfold Int.uint64. apply Z.mod_mod. lia.
  - unfold Int.uint64. rewrite Zminus_mod, Z_mod_same_full, Z.sub_0_r.
    rewrite !Z.mod_mod by lia. reflexivity.
Qed.

Lemma le_combine_8_range bs : length bs = 8%nat -> Int.is_uint64 (le_combine bs).
Proof.
  intros Hlen. pose proof (le_combine_split 8 (le_combine bs)) as H.
  rewrite <- Hlen in H at 1. rewrite split_le_combine in H.
  unfold Int.is_uint64. rewrite H. apply Z.mod_pos_bound. lia.
Qed.

Lemma bswap64_bytes x : bswap64 x = le_combine (rev (le_split 8 x)).
Proof.
  cbv [le_split rev app le_combine bswap64].
  rewrite !byte.unsigned_of_Z. unfold byte.wrap.
  rewrite <- !Z.land_ones by lia. change (Z.ones 8) with 255.
  rewrite !Z.shiftr_shiftr by lia.
  rewrite Z.shiftl_0_l, Z.lor_0_r.
  rewrite !Z.shiftl_lor. rewrite !Z.shiftl_shiftl by lia.
  fold_Z_sums.
  apply Z.bits_inj'. intros n _. rewrite !Z.lor_spec.
  repeat match goal with
  | |- context [Z.testbit ?t n] => generalize (Z.testbit t n); intro
  end.
  btauto.
Qed.

Lemma bswap64_range x : Int.is_uint64 (bswap64 x).
Proof.
  rewrite bswap64_bytes. apply le_combine_8_range, length_rev_le_split.
Qed.

Lemma htonll_range host x : Int.is_uint64 (htonll host x).
Proof. destruct host; [apply bswap64_range | apply uint64_range]. Qed.

Lemma big_endian_8_split x : big_endian_8 x = rev (le_split 8 x).
Proof.
  cbv [le_split rev app big_endian_8 map].
  rewrite !Z.shiftr_shiftr by lia. fold_Z_sums.
  rewrite !Z.shiftr_div_pow2 by lia.
  rewrite Z.mul_0_r, Z.pow_0_r, Z.div_1_r. reflexivity.
Qed.

Lemma length_big_endian_8 x : length (big_endian_8 x) = 8%nat.
Proof. reflexivity. Qed.

Lemma lor_shiftl_8 b y : 0 <= b < 2 ^ 8 -> Z.lor b (Z.shiftl y 8) = 256 * y + b.
Proof.
  intros Hb. rewrite Z.shiftl_mul_pow2 by lia.
  rewrite <- Z.add_nocarry_lor; [change (2 ^ 8) with 256; lia |].
  apply Z.bits_inj'. intros n Hn. rewrite Z.land_spec, Z.bits_0.
  destruct (Z_lt_le_dec n 8) as [Hlow | Hhigh].
  - rewrite Z.mul_pow2_bits_low by lia. apply andb_false_r.
  - rewrite <- (Z.mod_small b (2 ^ 8)) by lia.
    rewrite Z.mod_pow2_bits_high by lia. reflexivity.
Qed.

Lemma of_big_endian_combine bs : of_big_endian bs = le_combine (rev bs).
Proof.
  unfold of_big_endian. rewrite <- (rev_involutive bs) at 1.
  generalize (rev bs). intros l.
  induction l as [| b l IH]; [reflexivity |].
  cbn [rev le_combine]. rewrite fold_left_app, IH. cbn [fold_left].
  symmetry. apply lor_shiftl_8, byte.unsigned_range.
Qed.

(** What [pack] puts in memory for one field: the host representation of
    the converted value is the big-endian encoding, on either host. *)
Lemma repr64_htonll host x : repr64 host (htonll host x) = big_endian_8 x.
Proof.
  rewrite big_endian_8_split. destruct host; cbn [repr64 htonll].
  - rewrite bswap64_bytes.
    rewrite <- (length_rev_le_split 8 x) at 1. apply split_le_combine.
  - f_equal. apply le_split_uint64.
Qed.

(** What [unpack] makes of eight bytes read into a field. *)
Lemma ntohll_value64 host bs :
  length bs = 8%nat -> ntohll host (value64 host bs) = of_big_endian bs.
Proof.
  intros Hlen. rewrite of_big_endian_combine. unfold ntohll.
  destruct host; cbn [value64 htonll].
  - rewrite bswap64_bytes. rewrite <- Hlen. rewrite split_le_combine.
    reflexivity.
  - apply uint64_id, le_combine_8_range. rewrite length_rev. exact Hlen.
Qed.

Lemma htonll_int64 host x : htonll host (Int.int64 x) = htonll host x.
Proof.
  destruct host; cbn [htonll].
  - rewrite !bswap64_bytes, le_split_int64. reflexivity.
  - pose proof (le_split_int64 x) as H.
    apply (f_equal le_combine) in H.
    rewrite !(le_combine_split 8) in H. exact H.
Qed.

Lemma repr64_int64 host x : repr64 host (Int.int64 x) = repr64 host x.
Proof. destruct host; cbn [repr64]; rewrite le_split_int64; reflexivity. Qed.

Lemma of_big_endian_8 x : of_big_endian (big_endian_8 x) = Int.uint64 x.
Proof.
  rewrite of_big_endian_combine, big_endian_8_split, rev_involutive.
  apply (le_combine_split 8).
Qed.

Lemma big_endian_8_of bs :
  length bs = 8%nat -> big_endian_8 (of_big_endian bs) = bs.
Proof.
  intros Hlen. rewrite of_big_endian_combine, big_endian_8_split.
  rewrite <- (length_rev bs) in Hlen. rewrite <- Hlen, split_le_combine.
  apply rev_involutive.
Qed.

Lemma of_big_endian_range bs : length bs = 8%nat -> Int.is_uint64 (of_big_endian bs).
Proof.
  intros Hlen. rewrite of_big_endian_combine. apply le_combine_8_range.
  rewrite length_rev. exact Hlen.
Qed.

End EndianFacts.

(** ** Running computations *)

Lemma bind_run {A B} (m : M A) (f : A -> M B) s :
  (m ≫= f) s = match m s with
               | Ret a s' => f a s'
               | Fault s' => Fault s'
               | OutOfFuel s' => OutOfFuel s'
               end.
Proof. reflexivity. Qed.

Lemma ret_run {A} (a : A) s : mret (M := M) a s = Ret a s.
Proof. reflexivity. Qed.

Lemma load_run {A} (region : store -> gmap Z A) p a s :
  p <> 0 -> region s !! p = Some a -> load region p s = Ret a s.
Proof.
  intros Hp Ha. unfold load. rewrite (proj2 (Z.eqb_neq p 0) Hp), Ha. reflexivity.
Qed.

Lemma assign_run p v s :
  p <> 0 -> is_Some (cell_at s !! p) -> assign p v s = Ret tt (stored p v s).
Proof.
  intros Hp [w Hw]. unfold assign.
  rewrite (proj2 (Z.eqb_neq p 0) Hp), Hw. reflexivity.
Qed.

Lemma assign_null v s : assign 0 v s = Fault s.
Proof. reflexivity. Qed.

Lemma check_true {A} (e k : M A) : check true e k = k.
Proof. reflexivity. Qed.

Lemma check_false {A} (e k : M A) : check false e k = e.
Proof. reflexivity. Qed.

Lemma nonnull p : p <> 0 -> negb (p =? 0) = true.
Proof. intros H. rewrite (proj2 (Z.eqb_neq p 0) H). reflexivity. Qed.

Lemma null p : p = 0 -> negb (p =? 0) = false.
Proof. intros ->. reflexivity. Qed.

(** ** Block position *)

Lemma get_offset_success s block offset b df :
  block <> 0 -> block_at s !! block = Some b ->
  data_file b <> 0 -> data_file_at s !! data_file b = Some df ->
  block_size df <> 0 ->
  offset <> 0 -> is_Some (cell_at s !! offset) ->
  sky_block_get_offset block offset s =
    Ret 0 (stored offset (Int.uint64 (block_size df * index b)) s).
Proof.
  intros Hblock Hb Hfile Hdf Hsize Hoffset Hcell.
  unfold sky_block_get_offset.
  rewrite (nonnull block), check_true, bind_run, (load_run _ _ b) by done.
  rewrite (nonnull (data_file b)), check_true, bind_run, (load_run _ _ df) by done.
  rewrite (nonnull (block_size df)), check_true, bind_run, assign_run by done.
  reflexivity.
Qed.

Lemma get_offset_failure s block offset :
  offset <> 0 -> is_Some (cell_at s !! offset) ->
  block = 0 \/
  (exists b, block_at s !! block = Some b /\
     (data_file b = 0 \/
      exists df, data_file_at s !! data_file b = Some df /\ block_size df = 0)) ->
  sky_block_get_offset block offset s = Ret (-1) (stored offset 0 s).
Proof.
  intros Hoffset Hcell Hwhy. unfold sky_block_get_offset.
  assert (Herr : (assign offset 0;; mret (-1)) s = Ret (-1) (stored offset 0 s)).
  { rewrite bind_run, assign_run by done. reflexivity. }
  destruct (Z.eq_dec block 0) as [Hnull | Hblock].
  { rewrite (null block), check_false by done. exact Herr. }
  destruct Hwhy as [? | (b & Hb & Hwhy)]; [done |].
  rewrite (nonnull block), check_true, bind_run, (load_run _ _ b) by done.
  destruct (Z.eq_dec (data_file b) 0) as [Hnofile | Hfile].
  { rewrite (null (data_file b)), check_false by done. exact Herr. }
  destruct Hwhy as [? | (df & Hdf & Hzero)]; [done |].
  rewrite (nonnull (data_file b)), check_true, bind_run, (load_run _ _ df) by done.
  rewrite (null (block_size df)), check_false by done. exact Herr.
Qed.

(** C8, as the code has it: for a block whose data file is present with
    a nonzero [block_size], [sky_block_get_offset] succeeds and stores
    [block_size * index] reduced modulo [2^64], the width of [size_t].
    When the product fits in [size_t] the stored offset is the product
    itself, and the offsets of two blocks of the file are then strictly
    increasing with their indices.  When the data file is absent or its
    [block_size] is zero the call fails with [-1]. *)
Theorem get_offset_modular s block offset b :
  block <> 0 -> block_at s !! block = Some b ->
  offset <> 0 -> is_Some (cell_at s !! offset) ->
  (forall df,
     data_file b <> 0 -> data_file_at s !! data_file b = Some df ->
     block_size df <> 0 ->
     sky_block_get_offset block offset s =
       Ret 0 (stored offset ((block_size df * index b) mod 2 ^ 64) s) /\
     (0 <= block_size df * index b < 2 ^ 64 ->
      sky_block_get_offset block offset s =
        Ret 0 (stored offset (block_size df * index b) s)) /\
     (forall block' b',
        block' <> 0 -> block_at s !! block' = Some b' ->
        data_file b' = data_file b ->
        0 < block_size df -> 0 <= index b < index b' ->
        block_size df * index b' < 2 ^ 64 ->
        exists o o',
          sky_block_get_offset block offset s = Ret 0 (stored offset o s) /\
          sky_block_get_offset block' offset s = Ret 0 (stored offset o' s) /\
          o = block_size df * index b /\ o' = block_size df * index b' /\
          o < o')) /\
  (data_file b = 0 \/
   (exists df, data_file_at s !! data_file b = Some df /\ block_size df = 0) ->
   sky_block_get_offset block offset s = Ret (-1) (stored offset 0 s)).
Proof.
  intros Hblock Hb Hoffset Hcell. split.
  - intros df Hfile Hdf Hsize.
    pose proof (get_offset_success s block offset b df
                  Hblock Hb Hfile Hdf Hsize Hoffset Hcell) as Hrun.
    split; [exact Hrun |]. split.
    + intros Hfits. rewrite Hrun. unfold Int.uint64.
      rewrite Z.mod_small by exact Hfits. reflexivity.
    + intros block' b' Hblock' Hb' Hsame Hpos Hidx Hfits.
      exists (block_size df * index b), (block_size df * index b').
      assert (Hlt : block_size df * index b < block_size df * index b')
        by (apply Z.mul_lt_mono_pos_l; lia).
      split; [| split; [| repeat split; exact Hlt]].
      * rewrite Hrun. unfold Int.uint64. rewrite Z.mod_small by nia.
        reflexivity.
      * rewrite (get_offset_success s block' offset b' df); try done.
        -- unfold Int.uint64. rewrite Z.mod_small by nia. reflexivity.
        -- rewrite Hsame. exact Hfile.
        -- rewrite Hsame. exact Hdf.
  - intros Hwhy. apply get_offset_failure; [done | done |].
    right. exists b. split; [exact Hb | exact Hwhy].
Qed.

Lemma get_offset_modular_witness :
  sky_block_get_offset Example.block2 Example.slot Example.st =
    Ret 0 (stored Example.slot 128 Example.st) /\
  sky_block_get_offset Example.orphan Example.slot Example.st =
    Ret (-1) (stored Example.slot 0 Example.st).
Proof.
  split.
  - refine (proj1 (proj2 (proj1
      (get_offset_modular Example.st Example.block2 Example.slot
         (mk_block Example.file 2 30 30 201 300 true) _ _ _ _)
      (mk_data_file 64 [Example.block0; Example.block1; Example.block2;
                        Example.block3] 4 4096) _ _ _)) _);
      try reflexivity; try (vm_compute; congruence); try (cbn; lia).
    vm_compute. eauto.
  - refine (proj2
      (get_offset_modular Example.st Example.orphan Example.slot
         (mk_block 0 0 0 0 0 0 false) _ _ _ _) _);
      try reflexivity; try (vm_compute; congruence).
    + vm_compute. eauto.
    + left. reflexivity.
Defined.

(** C8 as stated fails where the product leaves [size_t]: with blocks of
    [2^63] bytes the offset stored for block 2 is [0], not
    [block_size * index], and equals the offset stored for block 0. *)
Lemma get_offset_wraps :
  exists b df,
    block_at Example.huge !! Example.block2 = Some b /\
    data_file_at Example.huge !! data_file b = Some df /\
    block_size df <> 0 /\
    sky_block_get_offset Example.block2 Example.slot Example.huge =
      Ret 0 (stored Example.slot 0 Example.huge) /\
    sky_block_get_offset Example.block0 Example.slot Example.huge =
      Ret 0 (stored Example.slot 0 Example.huge) /\
    block_size df * index b <> 0.
Proof.
  eexists _, _. split; [reflexivity |]. split; [reflexivity |].
  split; [cbn; lia |]. split; [vm_compute; reflexivity |].
  split; [vm_compute; reflexivity |]. cbn. lia.
Qed.

(** ** Spanning *)

Lemma array_get_run a i p s : a !! Z.to_nat i = Some p -> array_get a i s = Ret p s.
Proof. intros H. unfold array_get. rewrite H. reflexivity. Qed.

(** From position [i], with [n] matching blocks ahead and then the end
    of the array or a block of another object, the loop stops at
    [i + n + 1] after [n + 1] rounds. *)
Lemma span_loop_run s df id (n : nat) : forall (fuel : nat) i,
  (n < fuel)%nat ->
  0 <= i -> i + Z.of_nat n + 1 <= block_count df -> block_count df < 2 ^ 32 ->
  (forall k, 1 <= k <= Z.of_nat n -> block_has_id s df (i + k) id) ->
  (i + Z.of_nat n + 1 = block_count df \/
   exists id', block_has_id s df (i + Z.of_nat n + 1) id' /\ id' <> id) ->
  span_loop fuel df id i s = Ret (i + Z.of_nat n + 1) s.
Proof.
  induction n as [| n IH]; intros fuel i Hfuel Hi Hend Hcount Hrun Hstop;
    (destruct fuel as [| fuel]; [lia |]); cbn [span_loop].
  - rewrite !uint32_id by (unfold Int.is_uint32; lia).
    replace (i + Z.of_nat 0 + 1) with (i + 1) in * by lia.
    destruct Hstop as [Hlast | (id' & (p & b & Hp & Hnn & Hb & Hid) & Hne)].
    + rewrite (proj2 (Z.gtb_gt _ _)) by lia. reflexivity.
    + destruct (Z.gtb_spec (i + 1) (block_count df - 1)); [reflexivity |].
      rewrite bind_run, (array_get_run _ _ p) by done.
      rewrite bind_run, (load_run _ _ b) by done.
      rewrite (proj2 (Z.eqb_neq id (min_object_id b))) by congruence.
      reflexivity.
  - rewrite !uint32_id by (unfold Int.is_uint32; lia).
    destruct (Z.gtb_spec (i + 1) (block_count df - 1)); [lia |].
    destruct (Hrun 1) as (p & b & Hp & Hnn & Hb & Hid); [lia |].
    rewrite bind_run, (array_get_run _ _ p) by done.
    rewrite bind_run, (load_run _ _ b) by done.
    rewrite Hid, Z.eqb_refl. cbn [negb].
    rewrite (IH fuel (i + 1)); try lia.
    + f_equal. lia.
    + intros k Hk. replace (i + 1 + k) with (i + (1 + k)) by lia.
      apply Hrun. lia.
    + replace (i + 1 + Z.of_nat n + 1) with (i + Z.of_nat (S n) + 1) by lia.
      exact Hstop.
Qed.

(** C2: on the first block of a span, [sky_block_get_span_count] stores
    1 when the block is not spanned, whatever the block array holds and
    without a single round of the scanning loop; when the block is
    spanned and the array holds, from [block.index] on, [N] consecutive
    blocks with the block's [min_object_id], followed by the end of the
    array or by a block with another [min_object_id], it stores [N]. *)
Theorem span_count_run s block count b df (N : nat) :
  block <> 0 -> block_at s !! block = Some b ->
  data_file b <> 0 -> data_file_at s !! data_file b = Some df ->
  count <> 0 -> is_Some (cell_at s !! count) ->
  Int.is_uint32 (index b) -> Int.is_uint32 (block_count df) ->
  (spanned b = false ->
   forall fuel,
     sky_block_get_span_count fuel block count s = Ret 0 (stored count 1 s)) /\
  (spanned b = true ->
   (1 <= N)%nat ->
   (forall k, 0 <= k < Z.of_nat N ->
      block_has_id s df (index b + k) (min_object_id b)) ->
   index b + Z.of_nat N <= block_count df ->
   (index b + Z.of_nat N = block_count df \/
    exists id', block_has_id s df (index b + Z.of_nat N) id' /\
                id' <> min_object_id b) ->
   forall fuel, (N <= fuel)%nat ->
     sky_block_get_span_count fuel block count s =
       Ret 0 (stored count (Z.of_nat N) s)).
Proof.
  intros Hblock Hb Hfile Hdf Hcount Hcell Hidx Hbc.
  split.
  - intros Hflat fuel. unfold sky_block_get_span_count.
    rewrite (nonnull block), check_true, bind_run, (load_run _ _ b) by done.
    rewrite (nonnull (data_file b)), check_true by done.
    rewrite (nonnull count), check_true by done.
    rewrite bind_run, (load_run _ _ df) by done.
    rewrite Hflat. cbn [negb]. rewrite bind_run, assign_run by done.
    reflexivity.
  - intros Hspanned HN Hrun Hin Hstop fuel Hfuel.
    unfold sky_block_get_span_count.
    rewrite (nonnull block), check_true, bind_run, (load_run _ _ b) by done.
    rewrite (nonnull (data_file b)), check_true by done.
    rewrite (nonnull count), check_true by done.
    rewrite bind_run, (load_run _ _ df) by done.
    rewrite Hspanned. cbn [negb]. rewrite !bind_run.
    unfold Int.is_uint32 in Hidx, Hbc.
    rewrite (span_loop_run s df (min_object_id b) (N - 1) fuel (index b));
      try lia.
    + rewrite assign_run by done.
      replace (index b + Z.of_nat (N - 1) + 1 - index b) with (Z.of_nat N) by lia.
      rewrite uint32_id by (unfold Int.is_uint32; lia). reflexivity.
    + intros k Hk. apply Hrun. lia.
    + replace (index b + Z.of_nat (N - 1) + 1) with (index b + Z.of_nat N) by lia.
      exact Hstop.
Qed.

Lemma span_count_run_witness :
  sky_block_get_span_count 0 Example.block0 Example.slot Example.st =
    Ret 0 (stored Example.slot 1 Example.st) /\
  sky_block_get_span_count 2 Example.block1 Example.slot Example.st =
    Ret 0 (stored Example.slot 2 Example.st).
Proof.
  split.
  - refine (proj1
      (span_count_run Example.st Example.block0 Example.slot Example.header
         (mk_data_file 64 [Example.block0; Example.block1; Example.block2;
                           Example.block3] 4 4096) 1 _ _ _ _ _ _ _ _) _ 0%nat);
      try reflexivity; try (vm_compute; congruence);
      try (unfold Int.is_uint32; cbn; lia).
    vm_compute. eauto.
  - refine (proj2
      (span_count_run Example.st Example.block1 Example.slot
         (mk_block Example.file 1 30 30 100 200 true)
         (mk_data_file 64 [Example.block0; Example.block1; Example.block2;
                           Example.block3] 4 4096) 2 _ _ _ _ _ _ _ _)
      _ _ _ _ _ 2%nat _);
      try reflexivity; try (vm_compute; congruence);
      try (unfold Int.is_uint32; cbn; lia).
    + vm_compute. eauto.
    + intros k Hk. cbn [index min_object_id].
      assert (Hcases : k = 0 \/ k = 1) by lia.
      destruct Hcases as [-> | ->].
      * exists Example.block1, (mk_block Example.file 1 30 30 100 200 true).
        repeat split; try reflexivity. vm_compute. congruence.
      * exists Example.block2, (mk_block Example.file 2 30 30 201 300 true).
        repeat split; try reflexivity. vm_compute. congruence.
    + right. exists 40. split; [| cbn; lia].
      exists Example.block3, (mk_block Example.file 3 40 50 1 2 false).
      repeat split; try reflexivity. vm_compute. congruence.
Defined.

(** ** Raw memory *)

Lemma mapped_insert m p n q b : mapped m p n -> mapped (<[q := b]> m) p n.
Proof.
  intros H i Hi. rewrite lookup_insert_is_Some.
  destruct (decide (q = p + i)); [left; done | right; split; [done | apply H, Hi]].
Qed.

Lemma mapped_tail m p n : mapped m p (S n) -> mapped m (p + 1) n.
Proof.
  intros H i Hi. replace (p + 1 + i) with (p + (1 + i)) by lia. apply H. lia.
Qed.

Lemma mapped_skip m p (n k : nat) :
  mapped m p (k + n) -> mapped m (p + Z.of_nat k) n.
Proof.
  intros H i Hi. replace (p + Z.of_nat k + i) with (p + (Z.of_nat k + i)) by lia.
  apply H. lia.
Qed.

Lemma mapped_prefix m p (n k : nat) : mapped m p (k + n) -> mapped m p k.
Proof. intros H i Hi. apply H. lia. Qed.

Lemma blit_outside bs : forall m p a,
  a < p \/ p + Z.of_nat (length bs) <= a -> blit m p bs !! a = m !! a.
Proof.
  induction bs as [| b bs IH]; intros m p a Ha; [reflexivity |].
  cbn [blit length] in *. rewrite IH by lia. apply lookup_insert_ne. lia.
Qed.

Lemma mapped_blit bs : forall m q p n, mapped m p n -> mapped (blit m q bs) p n.
Proof.
  induction bs as [| b bs IH]; intros m q p n H; [exact H |].
  cbn [blit]. apply IH, mapped_insert, H.
Qed.

Lemma blit_app xs : forall m p ys,
  blit m p (xs ++ ys) = blit (blit m p xs) (p + Z.of_nat (length xs)) ys.
Proof.
  induction xs as [| x xs IH]; intros m p ys.
  - cbn. f_equal. lia.
  - cbn [app blit length]. rewrite IH. f_equal. lia.
Qed.

Lemma poke_blit bs : forall m p,
  mapped m p (length bs) -> poke m p bs = Some (blit m p bs).
Proof.
  induction bs as [| b bs IH]; intros m p H; [reflexivity |].
  cbn [poke blit length] in *.
  destruct (H 0) as [old Hold]; [lia |]. rewrite Z.add_0_r in Hold.
  rewrite Hold. apply IH, mapped_insert, mapped_tail, H.
Qed.

Lemma peek_blit bs : forall m p, peek (blit m p bs) p (length bs) = Some bs.
Proof.
  induction bs as [| b bs IH]; intros m p; [reflexivity |].
  cbn [peek blit length]. rewrite IH.
  rewrite blit_outside by lia. rewrite lookup_insert_eq. reflexivity.
Qed.

Lemma peek_length m : forall n p bs, peek m p n = Some bs -> length bs = n.
Proof.
  induction n as [| n IH]; intros p bs H; cbn [peek] in H.
  - injection H as <-. reflexivity.
  - destruct (m !! p); [| discriminate].
    destruct (peek m (p + 1) n) eqn:E; [| discriminate].
    injection H as <-. cbn. f_equal. eapply IH, E.
Qed.

Lemma peek_split m (k : nat) : forall (n : nat) p bs,
  peek m p (k + n) = Some bs ->
  peek m p k = Some (take k bs) /\
  peek m (p + Z.of_nat k) n = Some (drop k bs).
Proof.
  induction k as [| k IH]; intros n p bs H.
  - cbn [peek take drop]. rewrite Z.add_0_r. split; [reflexivity | exact H].
  - cbn [Nat.add peek] in *.
    destruct (m !! p) as [b |]; [| discriminate].
    destruct (peek m (p + 1) (k + n)) as [rest |] eqn:E; [| discriminate].
    injection H as <-. destruct (IH n (p + 1) rest E) as [Hk Hn].
    rewrite Hk. cbn [take drop]. split; [reflexivity |].
    rewrite <- Hn. f_equal. lia.
Qed.

Lemma memwrite_run ptr src s :
  mapped (byte_at s) ptr (length src) ->
  memwrite ptr src s =
    Ret (ptr + Z.of_nat (length src)) (set_byte_at (blit (byte_at s) ptr src) s).
Proof. intros H. unfold memwrite. rewrite poke_blit by exact H. reflexivity. Qed.

Lemma memread_run ptr sz bs s :
  peek (byte_at s) ptr sz = Some bs ->
  memread ptr sz s = Ret (bs, ptr + Z.of_nat sz) s.
Proof. intros H. unfold memread. rewrite H. reflexivity. Qed.

Lemma modify_block_run p f b s :
  p <> 0 -> block_at s !! p = Some b ->
  modify_block p f s = Ret tt (set_block_at (<[p := f b]> (block_at s)) s).
Proof.
  intros Hp Hb. unfold modify_block.
  rewrite (proj2 (Z.eqb_neq p 0) Hp), Hb. reflexivity.
Qed.

(** ** Serialization *)

Lemma report_run sz n s :
  sz = 0 \/ is_Some (cell_at s !! sz) ->
  ((if negb (sz =? 0) then assign sz n else mret tt);; mret 0) s =
    Ret 0 (reported sz n s).
Proof.
  intros Hsz. rewrite bind_run. unfold reported.
  destruct (Z.eqb_spec sz 0) as [-> | Hnn]; cbn [negb]; [reflexivity |].
  destruct Hsz as [? | Hcell]; [done |]. rewrite assign_run by done.
  reflexivity.
Qed.

Lemma pack_run host s block ptr sz b :
  block <> 0 -> block_at s !! block = Some b ->
  ptr <> 0 -> mapped (byte_at s) ptr 32 ->
  sz = 0 \/ is_Some (cell_at s !! sz) ->
  sky_block_pack host block ptr sz s =
    Ret 0 (reported sz 32 (set_byte_at (blit (byte_at s) ptr (wire_header b)) s)).
Proof.
  intros Hblock Hb Hptr Hmapped Hsz. unfold sky_block_pack.
  rewrite (nonnull block), check_true by done.
  rewrite (nonnull ptr), check_true by done.
  rewrite bind_run, (load_run _ _ b) by done.
  rewrite !repr64_int64, !repr64_htonll.
  rewrite bind_run, memwrite_run
    by (rewrite length_big_endian_8; apply (mapped_prefix _ _ 24 8), Hmapped).
  rewrite bind_run, memwrite_run
    by (rewrite !length_big_endian_8; cbn [byte_at set_byte_at];
        apply mapped_blit, (mapped_prefix _ _ 16 8), (mapped_skip _ _ _ 8), Hmapped).
  rewrite bind_run, memwrite_run
    by (rewrite !length_big_endian_8; cbn [byte_at set_byte_at];
        do 2 apply mapped_blit;
        replace (ptr + Z.of_nat 8 + Z.of_nat 8) with (ptr + Z.of_nat 16) by lia;
        apply (mapped_prefix _ _ 8 8), (mapped_skip _ _ _ 16), Hmapped).
  rewrite bind_run, memwrite_run
    by (rewrite !length_big_endian_8; cbn [byte_at set_byte_at];
        do 3 apply mapped_blit;
        replace (ptr + Z.of_nat 8 + Z.of_nat 8 + Z.of_nat 8)
          with (ptr + Z.of_nat 24) by lia;
        apply (mapped_skip _ _ 8 24), Hmapped).
  rewrite !length_big_endian_8. cbn [byte_at set_byte_at cell_at block_at
    data_file_at event_at paths_at].
  replace (ptr + Z.of_nat 8 + Z.of_nat 8 + Z.of_nat 8 + Z.of_nat 8 - ptr)
    with 32 by lia.
  rewrite (uint64_id 32) by (unfold Int.is_uint64; lia).
  rewrite report_run by exact Hsz.
  unfold wire_header. rewrite !blit_app, !length_big_endian_8.
  reflexivity.
Qed.

Lemma set_block_at_twice m m' s :
  set_block_at m (set_block_at m' s) = set_block_at m s.
Proof. reflexivity. Qed.

Lemma unpack_run host s block ptr sz d bs :
  block <> 0 -> block_at s !! block = Some d ->
  ptr <> 0 -> peek (byte_at s) ptr 32 = Some bs ->
  sz = 0 \/ is_Some (cell_at s !! sz) ->
  sky_block_unpack host block ptr sz s =
    Ret 0 (reported sz 32
             (set_block_at (<[block := decoded bs d]> (block_at s)) s)).
Proof.
  intros Hblock Hd Hptr Hpeek Hsz. unfold sky_block_unpack.
  rewrite (nonnull block), check_true by done.
  rewrite (nonnull ptr), check_true by done.
  destruct (peek_split _ 8 24 _ _ Hpeek) as [H0 Hrest].
  destruct (peek_split _ 8 16 _ _ Hrest) as [H1 Hrest'].
  destruct (peek_split _ 8 8 _ _ Hrest') as [H2 H3].
  rewrite !drop_drop in *. cbn [Nat.add] in *.
  assert (Hlen : length bs = 32%nat) by (eapply peek_length, Hpeek).
  assert (L0 : length (take 8 bs) = 8%nat) by (rewrite length_take; lia).
  assert (L1 : length (take 8 (drop 8 bs)) = 8%nat)
    by (rewrite length_take, length_drop; lia).
  assert (L2 : length (take 8 (drop 16 bs)) = 8%nat)
    by (rewrite length_take, length_drop; lia).
  assert (L3 : length (drop 24 bs) = 8%nat) by (rewrite length_drop; lia).
  rewrite bind_run, (memread_run _ _ _ _ H0).
  rewrite bind_run, (modify_block_run _ _ d) by done.
  rewrite bind_run, (modify_block_run _ _ _ _ Hblock (lookup_insert_eq _ _ _)).
  cbn [block_at set_block_at byte_at cell_at data_file_at event_at paths_at].
  rewrite bind_run, (memread_run _ _ (take 8 (drop 8 bs))) by exact H1.
  rewrite bind_run, (modify_block_run _ _ _ _ Hblock (lookup_insert_eq _ _ _)).
  rewrite bind_run, (modify_block_run _ _ _ _ Hblock (lookup_insert_eq _ _ _)).
  cbn [block_at set_block_at byte_at cell_at data_file_at event_at paths_at].
  rewrite bind_run, (memread_run _ _ (take 8 (drop 16 bs))) by exact H2.
  rewrite bind_run, (modify_block_run _ _ _ _ Hblock (lookup_insert_eq _ _ _)).
  rewrite bind_run, (modify_block_run _ _ _ _ Hblock (lookup_insert_eq _ _ _)).
  cbn [block_at set_block_at byte_at cell_at data_file_at event_at paths_at].
  rewrite bind_run, (memread_run _ _ (drop 24 bs)) by exact H3.
  rewrite bind_run, (modify_block_run _ _ _ _ Hblock (lookup_insert_eq _ _ _)).
  rewrite bind_run, (modify_block_run _ _ _ _ Hblock (lookup_insert_eq _ _ _)).
  cbn [block_at set_block_at byte_at cell_at data_file_at event_at paths_at].
  replace (ptr + Z.of_nat 8 + Z.of_nat 8 + Z.of_nat 8 + Z.of_nat 8 - ptr)
    with 32 by lia.
  rewrite (uint64_id 32) by (unfold Int.is_uint64; lia).
  rewrite report_run by exact Hsz.
  rewrite !set_block_at_twice, !insert_insert_eq.
  match goal with
  | |- Ret 0 (reported sz 32 (set_block_at (<[block := ?x]> _) s)) = _ =>
      assert (Hx : x = decoded bs d); [| rewrite Hx; reflexivity]
  end.
  unfold decoded.
  cbn [set_min_object_id set_max_object_id set_min_timestamp set_max_timestamp
       data_file index min_object_id max_object_id min_timestamp max_timestamp
       spanned].
  unfold Endian.ntohll at 3 4. rewrite !htonll_int64.
  fold (Endian.ntohll host (Endian.value64 host (take 8 (drop 16 bs)))).
  fold (Endian.ntohll host (Endian.value64 host (drop 24 bs))).
  rewrite !ntohll_value64 by assumption.
  rewrite (take_ge (drop 24 bs) 8) by lia.
  reflexivity.
Qed.

Lemma block_at_reported sz n s : block_at (reported sz n s) = block_at s.
Proof. unfold reported. destruct (sz =? 0); reflexivity. Qed.

Lemma byte_at_reported sz n s : byte_at (reported sz n s) = byte_at s.
Proof. unfold reported. destruct (sz =? 0); reflexivity. Qed.

Lemma cell_at_reported sz n s :
  sz <> 0 -> cell_at (reported sz n s) !! sz = Some n.
Proof.
  intros Hsz. unfold reported. rewrite (proj2 (Z.eqb_neq sz 0) Hsz).
  apply lookup_insert_eq.
Qed.

Lemma cell_live_reported sz n a s :
  is_Some (cell_at s !! a) -> is_Some (cell_at (reported sz n s) !! a).
Proof.
  intros H. unfold reported. destruct (sz =? 0); [exact H |].
  cbn [stored cell_at set_cell_at]. rewrite lookup_insert_is_Some.
  destruct (decide (sz = a)); [left; done | right; done].
Qed.

Lemma pack_absent host s block ptr sz :
  block = 0 \/ ptr = 0 -> sky_block_pack host block ptr sz s = Ret (-1) s.
Proof.
  intros Habsent. unfold sky_block_pack.
  destruct (Z.eq_dec block 0) as [Hnull | Hblock].
  - rewrite (null block), check_false by done. reflexivity.
  - destruct Habsent as [? | Hptr]; [done |].
    rewrite (nonnull block), check_true by done.
    rewrite (null ptr), check_false by done. reflexivity.
Qed.

Lemma unpack_absent host s block ptr sz :
  block = 0 \/ ptr = 0 ->
  sky_block_unpack host block ptr sz s = (assign sz 0;; mret (-1)) s.
Proof.
  intros Habsent. unfold sky_block_unpack.
  destruct (Z.eq_dec block 0) as [Hnull | Hblock].
  - rewrite (null block), check_false by done. reflexivity.
  - destruct Habsent as [? | Hptr]; [done |].
    rewrite (nonnull block), check_true by done.
    rewrite (null ptr), check_false by done. reflexivity.
Qed.

Lemma error_reset_run slot s :
  slot <> 0 -> is_Some (cell_at s !! slot) ->
  (assign slot 0;; mret (-1)) s = Ret (-1) (stored slot 0 s).
Proof. intros Hnn Hcell. rewrite bind_run, assign_run by done. reflexivity. Qed.

Lemma error_reset_never_succeeds slot s s' :
  (assign slot 0;; mret (-1)) s <> Ret 0 s'.
Proof.
  rewrite bind_run.
  destruct (assign slot 0 s) as [[] s1 | s1 | s1]; [rewrite ret_run | |]; congruence.
Qed.

(** The four fields survive the trip through the wire format. *)
Lemma decoded_wire_header h d :
  block_in_range h ->
  decoded (wire_header h) d =
    mk_block (data_file d) (index d) (min_object_id h) (max_object_id h)
             (min_timestamp h) (max_timestamp h) (spanned d).
Proof.
  intros (_ & Hmin & Hmax & Htmin & Htmax). unfold decoded, wire_header.
  change (take 8 (drop 24 ?l)) with (take 8 (drop 8 (drop 16 l))).
  change (take 8 (drop 16 ?l)) with (take 8 (drop 8 (drop 8 l))).
  assert (Htake : forall x l, take 8 (Endian.big_endian_8 x ++ l) = Endian.big_endian_8 x)
    by (intros; reflexivity).
  assert (Hdrop : forall x l, drop 8 (Endian.big_endian_8 x ++ l) = l)
    by (intros; reflexivity).
  rewrite !Hdrop, !Htake.
  rewrite (take_ge (Endian.big_endian_8 (max_timestamp h)))
    by (rewrite length_big_endian_8; lia).
  rewrite !of_big_endian_8.
  rewrite (uint64_id (min_object_id h)), (uint64_id (max_object_id h)) by done.
  rewrite !int64_uint64 by done. reflexivity.
Qed.

(** A buffer whose [n] bytes can be read is mapped. *)
Lemma peek_Some_mapped m : forall n p bs, peek m p n = Some bs -> mapped m p n.
Proof.
  induction n as [| n IH]; intros p bs H i Hi; [lia |].
  cbn [peek] in H. destruct (m !! p) as [b |] eqn:Hb; [| discriminate].
  destruct (peek m (p + 1) n) as [rest |] eqn:Hrest; [| discriminate].
  destruct (Z.eq_dec i 0) as [-> | Hne].
  - rewrite Z.add_0_r, Hb. eauto.
  - replace (p + i) with (p + 1 + (i - 1)) by lia.
    apply (IH _ _ Hrest). lia.
Qed.

Lemma example_buffer_mapped : mapped (byte_at Example.st) Example.buffer 32.
Proof. apply (peek_Some_mapped _ _ _ (replicate 32 Byte.x00)). reflexivity. Qed.

(** C4: with a block and a cursor, [sky_block_pack] succeeds; the 32
    bytes at the cursor then read [min_object_id], [max_object_id],
    [min_timestamp], [max_timestamp] as 8-byte big-endian integers in
    that order, nothing else in memory changes, and the count reported
    through [sz] is 32.  This holds on a host of either byte order.
    With the block or the cursor absent the call returns [-1] and the
    store is as before. *)
Theorem pack_layout host s block ptr sz :
  (block = 0 \/ ptr = 0 -> sky_block_pack host block ptr sz s = Ret (-1) s) /\
  (forall b,
     block <> 0 -> block_at s !! block = Some b ->
     ptr <> 0 -> mapped (byte_at s) ptr 32 ->
     sz <> 0 -> is_Some (cell_at s !! sz) ->
     exists s',
       sky_block_pack host block ptr sz s = Ret 0 s' /\
       peek (byte_at s') ptr 32 =
         Some (Endian.big_endian_8 (min_object_id b) ++
               Endian.big_endian_8 (max_object_id b) ++
               Endian.big_endian_8 (min_timestamp b) ++
               Endian.big_endian_8 (max_timestamp b)) /\
       (forall a, a < ptr \/ ptr + 32 <= a -> byte_at s' !! a = byte_at s !! a) /\
       cell_at s' !! sz = Some 32 /\
       block_at s' = block_at s).
Proof.
  split; [apply pack_absent |].
  intros b Hblock Hb Hptr Hmapped Hsz Hcell.
  eexists. split; [apply (pack_run host s block ptr sz b); auto |].
  rewrite byte_at_reported, block_at_reported. cbn [byte_at block_at set_byte_at].
  split; [| split; [| split]].
  - apply (peek_blit (wire_header b)).
  - intros a Ha. apply blit_outside. exact Ha.
  - apply cell_at_reported, Hsz.
  - reflexivity.
Qed.

Lemma pack_layout_witness :
  sky_block_pack Endian.LittleEndian 0 Example.buffer Example.slot Example.st =
    Ret (-1) Example.st /\
  exists s',
    sky_block_pack Endian.LittleEndian
      Example.block0 Example.buffer Example.slot Example.st = Ret 0 s' /\
    peek (byte_at s') Example.buffer 32 =
      Some (Endian.big_endian_8 5 ++ Endian.big_endian_8 20 ++
            Endian.big_endian_8 (-10) ++ Endian.big_endian_8 90) /\
    cell_at s' !! Example.slot = Some 32.
Proof.
  split.
  - apply (proj1 (pack_layout Endian.LittleEndian Example.st 0
                    Example.buffer Example.slot)).
    left. reflexivity.
  - destruct (proj2 (pack_layout Endian.LittleEndian Example.st Example.block0
                       Example.buffer Example.slot) Example.header)
      as (s' & Hrun & Hpeek & _ & Hcell & _).
    + vm_compute. congruence.
    + reflexivity.
    + vm_compute. congruence.
    + apply example_buffer_mapped.
    + vm_compute. congruence.
    + vm_compute. eauto.
    + exists s'. auto.
Defined.

(** C3: for a header [h] whose fields fit their types, packing [h] and
    unpacking the 32 bytes into any descriptor leaves that descriptor
    with the four fields of [h].  The two calls may run on hosts of
    different byte orders. *)
Theorem unpack_pack_roundtrip host host' s src dst ptr sz sz' h d :
  src <> 0 -> block_at s !! src = Some h -> block_in_range h ->
  dst <> 0 -> block_at s !! dst = Some d ->
  ptr <> 0 -> mapped (byte_at s) ptr 32 ->
  sz = 0 \/ is_Some (cell_at s !! sz) ->
  sz' = 0 \/ is_Some (cell_at s !! sz') ->
  exists s1 s2 d',
    sky_block_pack host src ptr sz s = Ret 0 s1 /\
    sky_block_unpack host' dst ptr sz' s1 = Ret 0 s2 /\
    block_at s2 !! dst = Some d' /\
    min_object_id d' = min_object_id h /\
    max_object_id d' = max_object_id h /\
    min_timestamp d' = min_timestamp h /\
    max_timestamp d' = max_timestamp h.
Proof.
  intros Hsrc Hh Hrange Hdst Hd Hptr Hmapped Hsz Hsz'.
  eexists _, _, _.
  split; [apply (pack_run host s src ptr sz h); assumption |].
  split.
  - apply (unpack_run host' _ dst ptr sz' d (wire_header h)); try assumption.
    + rewrite block_at_reported. exact Hd.
    + rewrite byte_at_reported. apply (peek_blit (wire_header h)).
    + destruct Hsz' as [-> | Hcell]; [left; reflexivity | right].
      apply cell_live_reported. exact Hcell.
  - rewrite block_at_reported. cbn [block_at set_block_at].
    rewrite lookup_insert_eq, decoded_wire_header by exact Hrange.
    repeat split; reflexivity.
Qed.

Lemma unpack_pack_roundtrip_witness :
  exists s1 s2 d',
    sky_block_pack Endian.LittleEndian
      Example.block0 Example.buffer Example.slot Example.st = Ret 0 s1 /\
    sky_block_unpack Endian.BigEndian
      Example.block3 Example.buffer Example.slot' s1 = Ret 0 s2 /\
    block_at s2 !! Example.block3 = Some d' /\
    min_object_id d' = 5 /\ max_object_id d' = 20 /\
    min_timestamp d' = -10 /\ max_timestamp d' = 90.
Proof.
  apply (unpack_pack_roundtrip Endian.LittleEndian Endian.BigEndian Example.st
           Example.block0 Example.block3 Example.buffer
           Example.slot Example.slot' Example.header
           (mk_block Example.file 3 40 50 1 2 false)).
  - vm_compute. congruence.
  - reflexivity.
  - unfold block_in_range, Int.is_uint32, Int.is_uint64, Int.is_int64.
    cbn. lia.
  - vm_compute. congruence.
  - reflexivity.
  - vm_compute. congruence.
  - apply example_buffer_mapped.
  - right. vm_compute. eauto.
  - right. vm_compute. eauto.
Defined.

(** C9: [sky_block_unpack] returns success exactly when the block and
    the cursor are both present.  With both present it succeeds on any
    32 readable bytes and stores what they decode to, whatever the
    order of the decoded minima and maxima: there is no validation. *)
Theorem unpack_fails_iff_absent host s block ptr sz d bs :
  (block <> 0 -> block_at s !! block = Some d) ->
  (ptr <> 0 -> peek (byte_at s) ptr 32 = Some bs) ->
  sz = 0 \/ is_Some (cell_at s !! sz) ->
  ((exists s', sky_block_unpack host block ptr sz s = Ret 0 s') <->
   block <> 0 /\ ptr <> 0) /\
  (block <> 0 -> ptr <> 0 ->
   sky_block_unpack host block ptr sz s =
     Ret 0 (reported sz 32
              (set_block_at (<[block := decoded bs d]> (block_at s)) s))).
Proof.
  intros Hd Hbs Hsz.
  assert (Hrun : block <> 0 -> ptr <> 0 ->
    sky_block_unpack host block ptr sz s =
      Ret 0 (reported sz 32
               (set_block_at (<[block := decoded bs d]> (block_at s)) s))).
  { intros Hblock Hptr. apply unpack_run; auto. }
  split; [| exact Hrun]. split.
  - intros [s' Hok].
    destruct (Z.eq_dec block 0) as [Hnull | Hblock];
      [| destruct (Z.eq_dec ptr 0) as [Hnoptr | Hptr]; [| done]].
    + rewrite unpack_absent in Hok by (left; exact Hnull).
      exfalso. exact (error_reset_never_succeeds _ _ _ Hok).
    + rewrite unpack_absent in Hok by (right; exact Hnoptr).
      exfalso. exact (error_reset_never_succeeds _ _ _ Hok).
  - intros [Hblock Hptr]. eexists. apply Hrun; assumption.
Qed.

Lemma unpack_fails_iff_absent_witness :
  exists s' d',
    sky_block_unpack Endian.LittleEndian
      Example.block3 Example.buffer' Example.slot Example.st = Ret 0 s' /\
    block_at s' !! Example.block3 = Some d' /\
    min_object_id d' = 9 /\ max_object_id d' = 3 /\
    min_timestamp d' = 5 /\ max_timestamp d' = -1.
Proof.
  eexists _, _. split.
  - apply (proj2 (unpack_fails_iff_absent Endian.LittleEndian Example.st
                    Example.block3 Example.buffer' Example.slot
                    (mk_block Example.file 3 40 50 1 2 false)
                    Example.inverted
                    (fun _ => eq_refl) (fun _ => eq_refl)
                    (or_intror (ex_intro _ 77 eq_refl)))).
    + vm_compute. congruence.
    + vm_compute. congruence.
  - rewrite block_at_reported. cbn [block_at set_block_at].
    rewrite lookup_insert_eq. repeat split; reflexivity.
Defined.

(** ** Output slots on the failure paths *)

(** With a live output slot, every failure path of the three operations
    leaves [0] in it. *)
Lemma unpack_failure_resets host s block ptr sz :
  sz <> 0 -> is_Some (cell_at s !! sz) ->
  block = 0 \/ ptr = 0 ->
  sky_block_unpack host block ptr sz s = Ret (-1) (stored sz 0 s).
Proof.
  intros Hsz Hcell Habsent. rewrite unpack_absent by exact Habsent.
  apply error_reset_run; assumption.
Qed.

Lemma span_count_failure_resets fuel s block count :
  count <> 0 -> is_Some (cell_at s !! count) ->
  block = 0 \/ (exists b, block_at s !! block = Some b /\ data_file b = 0) ->
  sky_block_get_span_count fuel block count s = Ret (-1) (stored count 0 s).
Proof.
  intros Hcount Hcell Hwhy. unfold sky_block_get_span_count.
  destruct (Z.eq_dec block 0) as [Hnull | Hblock].
  { rewrite (null block), check_false by done.
    apply error_reset_run; assumption. }
  destruct Hwhy as [? | (b & Hb & Hnofile)]; [done |].
  rewrite (nonnull block), check_true, bind_run, (load_run _ _ b) by done.
  rewrite (null (data_file b)), check_false by done.
  apply error_reset_run; assumption.
Qed.

(** The count slot of [sky_block_get_span_count] is tested like the
    other arguments, and the handler the test jumps to stores through
    it. *)
Lemma span_count_null_slot fuel s block b :
  block <> 0 -> block_at s !! block = Some b -> data_file b <> 0 ->
  sky_block_get_span_count fuel block 0 s = Fault s.
Proof.
  intros Hblock Hb Hfile. unfold sky_block_get_span_count.
  rewrite (nonnull block), check_true, bind_run, (load_run _ _ b) by done.
  rewrite (nonnull (data_file b)), check_true by done.
  reflexivity.
Qed.

Lemma unpack_null_slot host s block ptr :
  block = 0 \/ ptr = 0 -> sky_block_unpack host block ptr 0 s = Fault s.
Proof. intros Habsent. rewrite unpack_absent by exact Habsent. reflexivity. Qed.

(** [sky_block_get_offset] never tests its slot. *)
Lemma get_offset_null_slot s : sky_block_get_offset 0 0 s = Fault s.
Proof. reflexivity. Qed.

(** C5, where the code departs from it: when the output slot is the
    absent argument, the failure path does not end in a reported
    failure.  [sky_block_get_span_count] called with a null [count], and
    [sky_block_unpack] called with a null block and a null [sz], store
    through the null slot and fault. *)
Theorem failure_path_stores_through_null_slot host fuel :
  sky_block_get_span_count fuel Example.block1 0 Example.st =
    Fault Example.st /\
  sky_block_unpack host 0 Example.buffer 0 Example.st = Fault Example.st.
Proof.
  split.
  - apply (span_count_null_slot fuel Example.st Example.block1
             (mk_block Example.file 1 30 30 100 200 true)).
    + vm_compute. congruence.
    + reflexivity.
    + vm_compute. congruence.
  - apply unpack_null_slot. left. reflexivity.
Qed.

(** ** The footprint of the queries *)

Lemma same_but_refl X s : same_but X s s.
Proof. repeat split. Qed.

Lemma same_but_trans X s1 s2 s3 :
  same_but X s1 s2 -> same_but X s2 s3 -> same_but X s1 s3.
Proof.
  intros (Hb & Hf & He & Hp & Hm & Hc) (Hb' & Hf' & He' & Hp' & Hm' & Hc').
  repeat split; try congruence.
  intros a Ha. rewrite Hc', Hc by exact Ha. reflexivity.
Qed.

Lemma same_but_stored (X : Z -> Prop) p v s : X p -> same_but X s (stored p v s).
Proof.
  intros Hp. repeat split. intros a Ha. cbn [stored cell_at set_cell_at].
  apply lookup_insert_ne. intros ->. exact (Ha Hp).
Qed.

Lemma writes_only_ret {A} X (a : A) : writes_only X (mret a).
Proof. intros s. apply same_but_refl. Qed.

Lemma writes_only_bind {A B} X (m : M A) (f : A -> M B) :
  writes_only X m -> (forall a, writes_only X (f a)) -> writes_only X (m ≫= f).
Proof.
  intros Hm Hf s. rewrite bind_run. specialize (Hm s).
  destruct (m s) as [a s1 | s1 | s1]; cbn [final] in *; try exact Hm.
  eapply same_but_trans; [exact Hm | apply Hf].
Qed.

Lemma writes_only_check {A} X c (e k : M A) :
  writes_only X e -> writes_only X k -> writes_only X (check c e k).
Proof. intros He Hk. destruct c; assumption. Qed.

Lemma writes_only_if {A} X (c : bool) (m1 m2 : M A) :
  writes_only X m1 -> writes_only X m2 -> writes_only X (if c then m1 else m2).
Proof. intros H1 H2. destruct c; assumption. Qed.

Lemma writes_only_fault {A} X : writes_only X (fault (A := A)).
Proof. intros s. apply same_but_refl. Qed.

Lemma writes_only_out_of_fuel {A} X : writes_only X (out_of_fuel (A := A)).
Proof. intros s. apply same_but_refl. Qed.

Lemma writes_only_load {A} X (region : store -> gmap Z A) p :
  writes_only X (load region p).
Proof.
  intros s. unfold load. destruct (p =? 0); [apply same_but_refl |].
  destruct (region s !! p); apply same_but_refl.
Qed.

Lemma writes_only_assign (X : Z -> Prop) p v : X p -> writes_only X (assign p v).
Proof.
  intros Hp s. unfold assign. destruct (p =? 0); [apply same_but_refl |].
  destruct (cell_at s !! p); [| apply same_but_refl].
  apply same_but_stored, Hp.
Qed.

Lemma writes_only_array_get X a i : writes_only X (array_get a i).
Proof. intros s. unfold array_get. destruct (a !! Z.to_nat i); apply same_but_refl. Qed.

Lemma writes_only_with_local {A} (X : Z -> Prop) (body : Z -> M A) :
  (forall a, writes_only (fun x => X x \/ x = a) (body a)) ->
  writes_only X (with_local body).
Proof.
  intros Hbody s. unfold with_local.
  set (a := fresh ({[0]} ∪ dom (cell_at s))).
  assert (Hfresh : cell_at s !! a = None).
  { apply not_elem_of_dom. intros Hin.
    apply (is_fresh ({[0]} ∪ dom (cell_at s))). fold a. set_solver. }
  specialize (Hbody a (set_cell_at (<[a := 0]> (cell_at s)) s)).
  assert (Hleave : forall s',
    same_but (fun x => X x \/ x = a) (set_cell_at (<[a := 0]> (cell_at s)) s) s' ->
    same_but X s (set_cell_at (delete a (cell_at s')) s')).
  { intros s' (Hb & Hf & He & Hp & Hm & Hc). repeat split; try assumption.
    intros x Hx. cbn [cell_at set_cell_at] in *.
    destruct (decide (x = a)) as [-> | Hne].
    - rewrite lookup_delete_eq, Hfresh. reflexivity.
    - rewrite lookup_delete_ne by congruence.
      rewrite Hc by (intros [? | ?]; done).
      apply lookup_insert_ne. congruence. }
  destruct (body a _) as [r s' | s' | s']; cbn [final] in *; apply Hleave, Hbody.
Qed.

Create HintDb footprint.
#[local] Hint Resolve writes_only_ret writes_only_check writes_only_if
  writes_only_fault writes_only_out_of_fuel writes_only_load
  writes_only_array_get : footprint.

Ltac footprint :=
  repeat first
    [ apply writes_only_bind; [| intros ?]
    | apply writes_only_check
    | apply writes_only_if
    | apply writes_only_assign; solve [auto]
    | solve [auto with footprint]
    | match goal with |- writes_only _ (let (_, _) := ?p in _) => destruct p end ].

Lemma writes_only_get_offset (X : Z -> Prop) block offset :
  X offset -> writes_only X (sky_block_get_offset block offset).
Proof. intros Hx. unfold sky_block_get_offset. footprint. Qed.

Lemma writes_only_get_ptr (X : Z -> Prop) block ptr :
  X ptr -> writes_only X (sky_block_get_ptr block ptr).
Proof.
  intros Hx. unfold sky_block_get_ptr. footprint.
  apply writes_only_with_local. intros local. footprint.
Qed.

Lemma writes_only_span_loop X df id : forall fuel i,
  writes_only X (span_loop fuel df id i).
Proof.
  induction fuel as [| fuel IH]; intros i; cbn [span_loop]; footprint.
Qed.

Lemma writes_only_get_span_count (X : Z -> Prop) fuel block count :
  X count -> writes_only X (sky_block_get_span_count fuel block count).
Proof.
  intros Hx. unfold sky_block_get_span_count. footprint.
  apply writes_only_span_loop.
Qed.

Lemma writes_only_iterator_set_block X it block :
  writes_only X (sky_path_iterator_set_block it block).
Proof.
  intros s. unfold sky_path_iterator_set_block.
  destruct (paths_at s !! block); apply same_but_refl.
Qed.

Lemma writes_only_iterator_get_ptr (X : Z -> Prop) it ret :
  X ret -> writes_only X (sky_path_iterator_get_ptr it ret).
Proof.
  intros Hx. unfold sky_path_iterator_get_ptr.
  destruct (remaining it); footprint.
Qed.

Lemma writes_only_iterator_free X it : writes_only X (sky_path_iterator_free it).
Proof. destruct it; cbn [sky_path_iterator_free]; footprint. Qed.

Lemma writes_only_path_loop (X : Z -> Prop) it id ret : X ret ->
  forall fuel, writes_only X (path_loop fuel it id ret).
Proof.
  intros Hx. induction fuel as [| fuel IH]; cbn [path_loop]; footprint.
  apply writes_only_iterator_get_ptr, Hx.
Qed.

Lemma writes_only_get_path_ptr (X : Z -> Prop) fuel block id ret :
  X ret -> writes_only X (sky_block_get_path_ptr fuel block id ret).
Proof.
  intros Hx. unfold sky_block_get_path_ptr, sky_path_iterator_create.
  footprint;
    try apply writes_only_iterator_free;
    try apply writes_only_iterator_set_block;
    try (apply writes_only_path_loop; exact Hx).
Qed.

(** C10: however they end, [sky_block_get_offset], [sky_block_get_ptr],
    [sky_block_get_span_count] and [sky_block_get_path_ptr] leave every
    block descriptor and every data file descriptor of the store as they
    found them, as well as the events, the path records and raw memory;
    of the caller's variables only the output slot can differ. *)
Theorem queries_write_only_their_slot s fuel block object_id out :
  same_but (eq out) s (final (sky_block_get_offset block out s)) /\
  same_but (eq out) s (final (sky_block_get_ptr block out s)) /\
  same_but (eq out) s (final (sky_block_get_span_count fuel block out s)) /\
  same_but (eq out) s
    (final (sky_block_get_path_ptr fuel block object_id out s)).
Proof.
  split; [| split; [| split]].
  - apply writes_only_get_offset. reflexivity.
  - apply writes_only_get_ptr. reflexivity.
  - apply writes_only_get_span_count. reflexivity.
  - apply writes_only_get_path_ptr. reflexivity.
Qed.

(** ** Locating a path *)

(** The loop leaves at once when the iterator is at its end or stands on
    the wanted object. *)
Lemma path_loop_eof fuel it id ret s :
  eof it = true -> path_loop (S fuel) it id ret s = Ret 0 s.
Proof. intros H. cbn [path_loop]. rewrite H. reflexivity. Qed.

Lemma path_loop_match fuel p ps ret s :
  ret <> 0 -> is_Some (cell_at s !! ret) ->
  path_loop (S fuel) (mk_path_iterator (p :: ps)) (path_object_id p) ret s =
    Ret 0 (stored ret (path_ptr p) s).
Proof.
  intros Hret Hcell. cbn [path_loop eof remaining current_object_id].
  rewrite Z.eqb_refl. unfold sky_path_iterator_get_ptr. cbn [remaining].
  rewrite !bind_run, assign_run by done. reflexivity.
Qed.

(** Otherwise a round ends as it began: nothing in the body moves the
    iterator, and no amount of fuel lets the loop finish. *)
Lemma path_loop_stuck it id ret s :
  eof it = false -> current_object_id it <> id ->
  forall fuel, path_loop fuel it id ret s = OutOfFuel s.
Proof.
  intros Hmore Hother. induction fuel as [| fuel IH]; [reflexivity |].
  cbn [path_loop]. rewrite Hmore.
  rewrite (proj2 (Z.eqb_neq id (current_object_id it))) by congruence.
  exact IH.
Qed.

Lemma get_path_ptr_stuck fuel s block id ret p ps :
  block <> 0 -> 0 < id -> ret <> 0 -> is_Some (cell_at s !! ret) ->
  paths_at s !! block = Some (p :: ps) -> path_object_id p <> id ->
  sky_block_get_path_ptr fuel block id ret s = OutOfFuel (stored ret 0 s).
Proof.
  intros Hblock Hid Hret Hcell Hpaths Hother. unfold sky_block_get_path_ptr.
  rewrite (nonnull block), check_true by done.
  rewrite (proj2 (Z.ltb_lt 0 id)), check_true by done.
  rewrite bind_run. unfold sky_path_iterator_create. rewrite ret_run.
  rewrite bind_run. unfold sky_path_iterator_set_block. rewrite Hpaths.
  cbn [Z.eqb]. rewrite check_true.
  rewrite bind_run, assign_run by done.
  rewrite bind_run, path_loop_stuck; [reflexivity | reflexivity |].
  exact Hother.
Qed.

Lemma get_path_ptr_first fuel s block ret p ps :
  block <> 0 -> 0 < path_object_id p -> ret <> 0 -> is_Some (cell_at s !! ret) ->
  paths_at s !! block = Some (p :: ps) ->
  sky_block_get_path_ptr (S fuel) block (path_object_id p) ret s =
    Ret 0 (stored ret (path_ptr p) (stored ret 0 s)).
Proof.
  intros Hblock Hid Hret Hcell Hpaths. unfold sky_block_get_path_ptr.
  rewrite (nonnull block), check_true by done.
  rewrite (proj2 (Z.ltb_lt 0 _)), check_true by done.
  rewrite bind_run. unfold sky_path_iterator_create. rewrite ret_run.
  rewrite bind_run. unfold sky_path_iterator_set_block. rewrite Hpaths.
  cbn [Z.eqb]. rewrite check_true.
  rewrite bind_run, assign_run by done.
  rewrite bind_run, path_loop_match; [reflexivity | done |].
  cbn [stored cell_at set_cell_at]. rewrite lookup_insert_is_Some. left. done.
Qed.

Lemma get_path_ptr_empty fuel s block id ret :
  block <> 0 -> 0 < id -> ret <> 0 -> is_Some (cell_at s !! ret) ->
  paths_at s !! block = Some [] ->
  sky_block_get_path_ptr (S fuel) block id ret s = Ret 0 (stored ret 0 s).
Proof.
  intros Hblock Hid Hret Hcell Hpaths. unfold sky_block_get_path_ptr.
  rewrite (nonnull block), check_true by done.
  rewrite (proj2 (Z.ltb_lt 0 _)), check_true by done.
  rewrite bind_run. unfold sky_path_iterator_create. rewrite ret_run.
  rewrite bind_run. unfold sky_path_iterator_set_block. rewrite Hpaths.
  cbn [Z.eqb]. rewrite check_true.
  rewrite bind_run, assign_run by done.
  rewrite bind_run, path_loop_eof by reflexivity. reflexivity.
Qed.

(** C1, where the code departs from it: in the block holding the paths
    of objects 5, 9 and 20 the search for object 9, which has a record,
    and the search for object 7, which has none, do not return, whatever
    the number of rounds allowed: the iterator stays on the record of
    object 5.  All the loop has done by then is to clear the output
    slot. *)
Theorem get_path_ptr_never_advances fuel :
  sky_block_get_path_ptr fuel Example.block0 9 Example.slot Example.st =
    OutOfFuel (stored Example.slot 0 Example.st) /\
  sky_block_get_path_ptr fuel Example.block0 7 Example.slot Example.st =
    OutOfFuel (stored Example.slot 0 Example.st).
Proof.
  split;
    apply (get_path_ptr_stuck fuel Example.st Example.block0 _ Example.slot
             (mk_path 5 4128 10) [mk_path 9 4138 12; mk_path 20 4150 10]);
    try reflexivity; try (vm_compute; congruence); try (vm_compute; eauto).
Qed.

(** ** Splitting *)

(** [sky_block_split_with_event] runs the same loop on the event's
    object and gets no further; and however it ends it has written to
    [*ret] only: no path record is moved and no block is created. *)
Lemma split_with_event_stuck fuel s block event ret ev p ps :
  block <> 0 -> event <> 0 -> ret <> 0 -> is_Some (cell_at s !! ret) ->
  event_at s !! event = Some ev ->
  paths_at s !! block = Some (p :: ps) -> path_object_id p <> object_id ev ->
  sky_block_split_with_event fuel block event ret s =
    OutOfFuel (stored ret 0 s).
Proof.
  intros Hblock Hevent Hret Hcell Hev Hpaths Hother.
  unfold sky_block_split_with_event.
  rewrite (nonnull block), check_true by done.
  rewrite (nonnull event), check_true by done.
  rewrite bind_run, assign_run by done.
  rewrite bind_run. unfold sky_path_iterator_create. rewrite ret_run.
  rewrite bind_run. unfold sky_path_iterator_set_block.
  cbn [paths_at stored set_cell_at]. rewrite Hpaths.
  cbn [Z.eqb]. rewrite check_true. unfold with_local.
  cbn [cell_at event_at].
  set (a := fresh _).
  assert (Hfresh : <[ret := 0]> (cell_at s) !! a = None).
  { apply not_elem_of_dom. intros Hin.
    apply (is_fresh ({[0]} ∪ dom (<[ret := 0]> (cell_at s)))).
    apply elem_of_union_r, Hin. }
  rewrite bind_run, (load_run _ _ ev) by done.
  rewrite bind_run, path_loop_stuck; [| reflexivity | exact Hother].
  cbn [cell_at set_cell_at stored]. rewrite delete_insert_id by exact Hfresh.
  reflexivity.
Qed.

Lemma writes_only_split_with_event (X : Z -> Prop) fuel block event ret :
  X ret -> writes_only X (sky_block_split_with_event fuel block event ret).
Proof.
  intros Hx. unfold sky_block_split_with_event, sky_path_iterator_create.
  footprint; try apply writes_only_iterator_set_block.
  apply writes_only_with_local. intros ptr. footprint;
    try apply writes_only_iterator_free.
  apply writes_only_path_loop. right. reflexivity.
Qed.

(** ** Adding an event *)

Lemma add_event_run s block event :
  block <> 0 -> event <> 0 -> sky_block_add_event block event s = Ret 0 s.
Proof.
  intros Hblock Hevent. unfold sky_block_add_event.
  rewrite (nonnull block), check_true by done.
  rewrite (nonnull event), check_true by done. reflexivity.
Qed.

(** C6, where the code departs from it: the data file has a single
    block of 64 bytes, that block holds no path record and no other
    path area exists, and the event takes 100 bytes, more than a block.
    [sky_block_add_event] returns success for it and leaves the store
    as it was: the event is stored nowhere. *)
Theorem add_event_accepts_oversized_event :
  exists ev df,
    event_at Vacant.st !! Vacant.event = Some ev /\
    data_file_at Vacant.st !! Vacant.file = Some df /\
    blocks df = [Vacant.block] /\
    paths_at Vacant.st = {[ Vacant.block := [] ]} /\
    block_size df < encoded_size ev /\
    sky_block_add_event Vacant.block Vacant.event Vacant.st =
      Ret 0 Vacant.st.
Proof.
  eexists _, _. split; [reflexivity |]. split; [reflexivity |].
  split; [reflexivity |]. split; [reflexivity |].
  split; [cbn; lia |].
  apply add_event_run.
  - unfold Vacant.block. lia.
  - unfold Vacant.event. lia.
Qed.

(** C7, where the code departs from it: block 0 is full and the event at
    700 would fit an empty block, yet [sky_block_add_event] returns
    success without a split: the store is as before, with the same
    blocks and the same path records, none of them for the new event. *)
Theorem add_event_never_splits :
  exists ev df ps,
    event_at Example.st !! Example.event' = Some ev /\
    data_file_at Example.st !! Example.file = Some df /\
    paths_at Example.st !! Example.block0 = Some ps /\
    occupied ps = block_size df /\
    0 < encoded_size ev <= block_size df /\
    Forall (fun p => path_object_id p <> object_id ev) ps /\
    sky_block_add_event Example.block0 Example.event' Example.st =
      Ret 0 Example.st.
Proof.
  eexists _, _, _. split; [reflexivity |]. split; [reflexivity |].
  split; [reflexivity |]. split; [reflexivity |]. split; [cbn; lia |].
  split; [repeat constructor; cbn; lia |].
  apply add_event_run; vm_compute; congruence.
Qed.

(** * Further properties of the code *)

(** ** The header codec *)

Lemma big_endian_8_int64 x :
  Endian.big_endian_8 (Int.int64 x) = Endian.big_endian_8 x.
Proof. rewrite !big_endian_8_split, le_split_int64. reflexivity. Qed.

Lemma quarters {A} (l : list A) :
  length l = 32%nat ->
  l = take 8 l ++ take 8 (drop 8 l) ++ take 8 (drop 16 l) ++ take 8 (drop 24 l).
Proof.
  intros Hlen. do 32 (destruct l as [| ? l]; [discriminate |]).
  destruct l; [reflexivity | discriminate].
Qed.

(** Thirty-two bytes decoded and encoded again are the same bytes. *)
Lemma wire_header_decoded bs d :
  length bs = 32%nat -> wire_header (decoded bs d) = bs.
Proof.
  intros Hlen. unfold wire_header, decoded.
  cbn [min_object_id max_object_id min_timestamp max_timestamp].
  rewrite !big_endian_8_int64.
  rewrite !big_endian_8_of
    by (rewrite length_take, ?length_drop; lia).
  symmetry. apply quarters, Hlen.
Qed.

(** X1: [sky_block_pack] does the same on a little-endian and on a
    big-endian host, whatever its arguments and the store: the same
    result, the same bytes, the same fault. *)
Theorem pack_host_independent host host' block ptr sz s :
  sky_block_pack host block ptr sz s = sky_block_pack host' block ptr sz s.
Proof.
  unfold sky_block_pack, check.
  destruct (negb (block =? 0)); [| reflexivity].
  destruct (negb (ptr =? 0)); [| reflexivity].
  rewrite !bind_run. destruct (load block_at block s) as [b s1 | s1 | s1];
    [| reflexivity | reflexivity].
  cbv beta zeta. rewrite !repr64_int64, !repr64_htonll. reflexivity.
Qed.

Lemma memread_inv ptr n s :
  memread ptr n s = Fault s \/
  exists bs, length bs = n /\ memread ptr n s = Ret (bs, ptr + Z.of_nat n) s.
Proof.
  unfold memread. destruct (peek (byte_at s) ptr n) as [bs |] eqn:Hpeek.
  - right. exists bs. split; [eapply peek_length, Hpeek | reflexivity].
  - left. reflexivity.
Qed.

Lemma modify_block_dangling p f s :
  block_at s !! p = None -> modify_block p f s = Fault s.
Proof. intros H. unfold modify_block. rewrite H. destruct (p =? 0); reflexivity. Qed.

Lemma ntohll_int64_value64 host bs :
  length bs = 8%nat ->
  Endian.ntohll host (Int.int64 (Endian.value64 host bs)) =
    Endian.of_big_endian bs.
Proof.
  intros Hlen. unfold Endian.ntohll. rewrite htonll_int64.
  apply (ntohll_value64 host bs Hlen).
Qed.

(** One field of [sky_block_unpack]: the read at the cursor, the raw
    store into the field and its conversion, on the two sides of an
    equation between runs on different hosts. *)
Ltac unpack_field block Hblock :=
  rewrite !bind_run;
  match goal with
  | |- context [memread ?p 8 ?st] =>
      let raw := fresh "raw" in
      let L := fresh "L" in
      let Hr := fresh "Hr" in
      let Hf := fresh "Hf" in
      destruct (memread_inv p 8 st) as [Hf | (raw & L & Hr)];
      [ rewrite !Hf; reflexivity
      | rewrite !Hr; cbv beta iota; rewrite !bind_run;
        rewrite !(modify_block_run block _ _ _ Hblock (lookup_insert_eq _ _ _));
        rewrite !bind_run;
        rewrite !(modify_block_run block _ _ _ Hblock (lookup_insert_eq _ _ _));
        cbv [set_min_object_id set_max_object_id
             set_min_timestamp set_max_timestamp];
        cbn [block_at set_block_at byte_at cell_at data_file_at event_at
             paths_at data_file index min_object_id max_object_id
             min_timestamp max_timestamp spanned];
        rewrite !set_block_at_twice, !insert_insert_eq;
        rewrite ?ntohll_value64, ?ntohll_int64_value64 by exact L ]
  end.

(** X2: [sky_block_unpack] does the same on a little-endian and on a
    big-endian host, whatever its arguments and the store: the same
    result, the same decoded fields, the same fault at the same point. *)
Theorem unpack_host_independent host host' block ptr sz s :
  sky_block_unpack host block ptr sz s = sky_block_unpack host' block ptr sz s.
Proof.
  unfold sky_block_unpack, check.
  destruct (Z.eqb_spec block 0) as [| Hblock]; [reflexivity |]. cbn [negb].
  destruct (Z.eqb_spec ptr 0) as [| Hptr]; [reflexivity |]. cbn [negb].
  rewrite !bind_run.
  destruct (memread_inv ptr 8 s) as [Hf | (raw0 & L0 & Hr)];
    [rewrite !Hf; reflexivity | rewrite !Hr].
  cbv beta iota. rewrite !bind_run.
  destruct (block_at s !! block) as [d |] eqn:Hd;
    [| rewrite !modify_block_dangling by exact Hd; reflexivity].
  rewrite !(modify_block_run block _ d s Hblock Hd).
  rewrite !bind_run.
  rewrite !(modify_block_run block _ _ _ Hblock (lookup_insert_eq _ _ _)).
  cbv [set_min_object_id].
  cbn [block_at set_block_at byte_at cell_at data_file_at event_at paths_at
       data_file index min_object_id max_object_id min_timestamp
       max_timestamp spanned].
  rewrite !set_block_at_twice, !insert_insert_eq.
  rewrite !ntohll_value64 by exact L0.
  unpack_field block Hblock.
  unpack_field block Hblock.
  unpack_field block Hblock.
  reflexivity.
Qed.

(** X3: decoding 32 bytes into a descriptor with [sky_block_unpack] and
    encoding that descriptor with [sky_block_pack] writes the same 32
    bytes again, whatever they are and on hosts of either byte order. *)
Theorem pack_unpack_bytes_roundtrip host host' s block src dst sz sz' d bs :
  block <> 0 -> block_at s !! block = Some d ->
  src <> 0 -> peek (byte_at s) src 32 = Some bs ->
  dst <> 0 -> mapped (byte_at s) dst 32 ->
  sz = 0 \/ is_Some (cell_at s !! sz) ->
  sz' = 0 \/ is_Some (cell_at s !! sz') ->
  exists s1 s2,
    sky_block_unpack host block src sz s = Ret 0 s1 /\
    sky_block_pack host' block dst sz' s1 = Ret 0 s2 /\
    peek (byte_at s2) dst 32 = Some bs.
Proof.
  intros Hblock Hd Hsrc Hpeek Hdst Hmapped Hsz Hsz'.
  assert (Hlen : length bs = 32%nat) by (eapply peek_length, Hpeek).
  eexists _, _. split; [apply (unpack_run host s block src sz d bs); assumption |].
  split.
  - apply (pack_run host' _ block dst sz' (decoded bs d)); try assumption.
    + rewrite block_at_reported. cbn [block_at set_block_at].
      apply lookup_insert_eq.
    + rewrite byte_at_reported. exact Hmapped.
    + destruct Hsz' as [-> | Hcell]; [left; reflexivity | right].
      apply cell_live_reported. exact Hcell.
  - rewrite byte_at_reported. cbn [byte_at set_byte_at].
    rewrite byte_at_reported. cbn [byte_at set_block_at].
    rewrite wire_header_decoded by exact Hlen.
    rewrite <- Hlen at 1. apply peek_blit.
Qed.

Lemma pack_unpack_bytes_roundtrip_witness :
  exists s1 s2,
    sky_block_unpack Endian.BigEndian
      Example.block3 Example.buffer' Example.slot Example.st = Ret 0 s1 /\
    sky_block_pack Endian.LittleEndian
      Example.block3 Example.buffer Example.slot' s1 = Ret 0 s2 /\
    peek (byte_at s2) Example.buffer 32 = Some Example.inverted.
Proof.
  apply (pack_unpack_bytes_roundtrip Endian.BigEndian Endian.LittleEndian
           Example.st Example.block3 Example.buffer' Example.buffer
           Example.slot Example.slot'
           (mk_block Example.file 3 40 50 1 2 false)).
  - vm_compute. congruence.
  - reflexivity.
  - vm_compute. congruence.
  - reflexivity.
  - vm_compute. congruence.
  - apply example_buffer_mapped.
  - right. vm_compute. eauto.
  - right. vm_compute. eauto.
Defined.

(** X4: a successful [sky_block_unpack] replaces the four header fields
    of the descriptor and nothing else: its [data_file], [index] and
    [spanned] are kept, the other descriptors, the data files and raw
    memory are as before, and of the caller's variables only [*sz] is
    written, with the 32 bytes read. *)
Theorem unpack_touches_header_only host s block ptr sz d bs :
  block <> 0 -> block_at s !! block = Some d ->
  ptr <> 0 -> peek (byte_at s) ptr 32 = Some bs ->
  sz <> 0 -> is_Some (cell_at s !! sz) ->
  exists s' d',
    sky_block_unpack host block ptr sz s = Ret 0 s' /\
    block_at s' !! block = Some d' /\
    data_file d' = data_file d /\ index d' = index d /\
    spanned d' = spanned d /\
    (forall p, p <> block -> block_at s' !! p = block_at s !! p) /\
    data_file_at s' = data_file_at s /\
    byte_at s' = byte_at s /\
    cell_at s' !! sz = Some 32 /\
    (forall a, a <> sz -> cell_at s' !! a = cell_at s !! a).
Proof.
  intros Hblock Hd Hptr Hpeek Hsz Hcell.
  eexists _, _. split; [apply (unpack_run host s block ptr sz d bs); auto |].
  unfold reported. rewrite (proj2 (Z.eqb_neq sz 0) Hsz).
  cbn [stored block_at data_file_at byte_at cell_at set_cell_at set_block_at].
  split; [apply lookup_insert_eq |]. repeat split.
  - intros p Hp. apply lookup_insert_ne. congruence.
  - apply lookup_insert_eq.
  - intros a Ha. apply lookup_insert_ne. congruence.
Qed.

Lemma unpack_touches_header_only_witness :
  exists s' d',
    sky_block_unpack Endian.LittleEndian
      Example.block3 Example.buffer' Example.slot Example.st = Ret 0 s' /\
    block_at s' !! Example.block3 = Some d' /\
    data_file d' = Example.file /\ index d' = 3 /\ spanned d' = false /\
    block_at s' !! Example.block0 = Some Example.header /\
    cell_at s' !! Example.slot = Some 32 /\
    cell_at s' !! Example.slot' = Some 77.
Proof.
  destruct (unpack_touches_header_only Endian.LittleEndian Example.st
              Example.block3 Example.buffer' Example.slot
              (mk_block Example.file 3 40 50 1 2 false) Example.inverted)
    as (s' & d' & Hrun & Hd' & Hfile & Hindex & Hspanned & Hothers & _ & _
        & Hsz & Hcells).
  - vm_compute. congruence.
  - reflexivity.
  - vm_compute. congruence.
  - reflexivity.
  - vm_compute. congruence.
  - vm_compute. eauto.
  - exists s', d'. repeat split; try assumption.
    + rewrite Hothers by (vm_compute; congruence). reflexivity.
    + rewrite Hcells by (vm_compute; congruence). reflexivity.
Defined.

(** X5: the byte count slot of the codec is optional on the success
    path: with a null [sz], [sky_block_pack] and [sky_block_unpack]
    succeed all the same and write to no variable of the caller. *)
Theorem byte_count_slot_is_optional host s block ptr b bs :
  block <> 0 -> block_at s !! block = Some b ->
  ptr <> 0 -> peek (byte_at s) ptr 32 = Some bs ->
  exists s1 s2,
    sky_block_pack host block ptr 0 s = Ret 0 s1 /\
    cell_at s1 = cell_at s /\
    peek (byte_at s1) ptr 32 = Some (wire_header b) /\
    sky_block_unpack host block ptr 0 s = Ret 0 s2 /\
    cell_at s2 = cell_at s /\
    block_at s2 !! block = Some (decoded bs b).
Proof.
  intros Hblock Hb Hptr Hpeek.
  eexists _, _. split.
  { apply (pack_run host s block ptr 0 b); auto.
    eapply peek_Some_mapped, Hpeek. }
  split; [reflexivity |]. split; [apply (peek_blit (wire_header b)) |].
  split; [apply (unpack_run host s block ptr 0 b bs); auto |].
  split; [reflexivity |]. apply lookup_insert_eq.
Qed.

Lemma byte_count_slot_is_optional_witness :
  exists s1 s2,
    sky_block_pack Endian.LittleEndian Example.block0 Example.buffer 0
      Example.st = Ret 0 s1 /\
    cell_at s1 = cell_at Example.st /\
    sky_block_unpack Endian.LittleEndian Example.block0 Example.buffer 0
      Example.st = Ret 0 s2 /\
    cell_at s2 = cell_at Example.st.
Proof.
  destruct (byte_count_slot_is_optional Endian.LittleEndian Example.st
              Example.block0 Example.buffer Example.header
              (replicate 32 Byte.x00))
    as (s1 & s2 & Hpack & Hcells & _ & Hunpack & Hcells' & _).
  - vm_compute. congruence.
  - reflexivity.
  - vm_compute. congruence.
  - reflexivity.
  - exists s1, s2. auto.
Defined.

(** X6: with a present output slot, every failure path of
    [sky_block_unpack], [sky_block_get_offset] and
    [sky_block_get_span_count] returns [-1] and leaves [0] in the slot,
    whatever it held, and changes nothing else. *)
Theorem failure_resets_present_slot host fuel s block ptr slot :
  slot <> 0 -> is_Some (cell_at s !! slot) ->
  (block = 0 \/ ptr = 0 ->
   sky_block_unpack host block ptr slot s = Ret (-1) (stored slot 0 s)) /\
  (block = 0 \/
   (exists b, block_at s !! block = Some b /\
      (data_file b = 0 \/
       exists df, data_file_at s !! data_file b = Some df /\
                  block_size df = 0)) ->
   sky_block_get_offset block slot s = Ret (-1) (stored slot 0 s)) /\
  (block = 0 \/ (exists b, block_at s !! block = Some b /\ data_file b = 0) ->
   sky_block_get_span_count fuel block slot s = Ret (-1) (stored slot 0 s)).
Proof.
  intros Hslot Hcell. split; [| split].
  - apply unpack_failure_resets; assumption.
  - apply get_offset_failure; assumption.
  - apply span_count_failure_resets; assumption.
Qed.

Lemma failure_resets_present_slot_witness :
  sky_block_unpack Endian.LittleEndian 0 Example.buffer Example.slot
    Example.st = Ret (-1) (stored Example.slot 0 Example.st) /\
  sky_block_get_offset 0 Example.slot Example.st =
    Ret (-1) (stored Example.slot 0 Example.st) /\
  sky_block_get_span_count 3 Example.orphan Example.slot Example.st =
    Ret (-1) (stored Example.slot 0 Example.st) /\
  cell_at Example.st !! Example.slot = Some 77 /\
  cell_at (stored Example.slot 0 Example.st) !! Example.slot = Some 0.
Proof.
  assert (Hslot : Example.slot <> 0) by (vm_compute; congruence).
  assert (Hcell : is_Some (cell_at Example.st !! Example.slot))
    by (vm_compute; eauto).
  destruct (failure_resets_present_slot Endian.LittleEndian 3 Example.st
              0 Example.buffer Example.slot Hslot Hcell)
    as (Hunpack & Hoffset & _).
  destruct (failure_resets_present_slot Endian.LittleEndian 3 Example.st
              Example.orphan Example.buffer Example.slot Hslot Hcell)
    as (_ & _ & Hspan).
  split; [apply Hunpack; left; reflexivity |].
  split; [apply Hoffset; left; reflexivity |].
  split; [| split; reflexivity].
  apply Hspan. right. exists (mk_block 0 0 0 0 0 0 false).
  split; reflexivity.
Defined.

(** ** Block position *)

(** The cell of a local variable is fresh: not null and not in use. *)
Lemma fresh_cell (m : gmap Z Z) :
  let a := fresh ({[0]} ∪ dom m) in a <> 0 /\ m !! a = None.
Proof.
  intros a. pose proof (is_fresh ({[0]} ∪ dom m)) as Hfresh. fold a in Hfresh.
  split.
  - intros H0. apply Hfresh. rewrite H0. apply elem_of_union_l.
    apply elem_of_singleton. reflexivity.
  - apply not_elem_of_dom. intros Hin. apply Hfresh.
    apply elem_of_union_r, Hin.
Qed.

(** Leaving the scope of a local undoes its cell and keeps a store made
    through another slot. *)
Lemma leave_local (m : gmap Z Z) a p v w :
  m !! a = None -> p <> a ->
  delete a (<[p := v]> (<[a := w]> m)) = <[p := v]> m.
Proof.
  intros Hfresh Hne. apply map_eq. intros k.
  destruct (decide (k = a)) as [-> | Hka].
  - rewrite lookup_delete_eq, lookup_insert_ne, Hfresh by congruence.
    reflexivity.
  - rewrite lookup_delete_ne by congruence.
    destruct (decide (k = p)) as [-> | Hkp].
    + rewrite !lookup_insert_eq. reflexivity.
    + rewrite !lookup_insert_ne by congruence. reflexivity.
Qed.

Lemma get_ptr_success s block ptr b df :
  block <> 0 -> block_at s !! block = Some b ->
  data_file b <> 0 -> data_file_at s !! data_file b = Some df ->
  data df <> 0 -> block_size df <> 0 ->
  ptr <> 0 -> is_Some (cell_at s !! ptr) ->
  sky_block_get_ptr block ptr s =
    Ret 0 (stored ptr
             (Int.uint64 (data df + Int.uint64 (block_size df * index b))) s).
Proof.
  intros Hblock Hb Hfile Hdf Hdata Hsize Hptr Hcell.
  unfold sky_block_get_ptr.
  rewrite (nonnull block), check_true, bind_run, (load_run _ _ b) by done.
  rewrite (nonnull (data_file b)), check_true, bind_run, (load_run _ _ df) by done.
  rewrite (nonnull (data df)), check_true by done.
  unfold with_local.
  destruct (fresh_cell (cell_at s)) as [Hnn Hfresh].
  set (a := fresh ({[0]} ∪ dom (cell_at s))) in *.
  assert (Hne : ptr <> a).
  { intros ->. rewrite Hfresh in Hcell. destruct Hcell; discriminate. }
  rewrite bind_run.
  rewrite (get_offset_success _ block a b df); try assumption;
    [| cbn [cell_at set_cell_at]; rewrite lookup_insert_eq; eauto].
  cbn [Z.eqb]. rewrite check_true.
  rewrite bind_run, (load_run cell_at a (Int.uint64 (block_size df * index b)))
    by (try assumption; apply lookup_insert_eq).
  rewrite bind_run, assign_run;
    [| assumption
     | cbn [stored cell_at set_cell_at];
       rewrite !lookup_insert_ne by congruence; exact Hcell].
  rewrite ret_run. unfold stored. cbn [cell_at set_cell_at block_at
    data_file_at event_at paths_at byte_at].
  rewrite insert_insert_eq, leave_local by assumption. reflexivity.
Qed.

(** X7: for a block of a mapped data file with a nonzero block size,
    [sky_block_get_ptr] succeeds and stores the base address of the
    mapping plus the offset that [sky_block_get_offset] stores for the
    block (in 64-bit arithmetic); the temporary that holds the offset
    leaves no trace, [*ptr] is the only change. *)
Theorem get_ptr_is_base_plus_offset s block ptr off b df :
  block <> 0 -> block_at s !! block = Some b ->
  data_file b <> 0 -> data_file_at s !! data_file b = Some df ->
  data df <> 0 -> block_size df <> 0 ->
  ptr <> 0 -> is_Some (cell_at s !! ptr) ->
  off <> 0 -> is_Some (cell_at s !! off) ->
  exists o,
    sky_block_get_offset block off s = Ret 0 (stored off o s) /\
    sky_block_get_ptr block ptr s =
      Ret 0 (stored ptr (Int.uint64 (data df + o)) s) /\
    (0 <= data df -> 0 <= block_size df * index b ->
     data df + block_size df * index b < 2 ^ 64 ->
     Int.uint64 (data df + o) = data df + block_size df * index b).
Proof.
  intros Hblock Hb Hfile Hdf Hdata Hsize Hptr Hcell Hoff Hocell.
  exists (Int.uint64 (block_size df * index b)).
  split; [apply get_offset_success; assumption |].
  split; [apply get_ptr_success; assumption |].
  intros Hbase Hpos Hfits. unfold Int.uint64.
  rewrite (Z.mod_small (block_size df * index b)) by lia.
  apply Z.mod_small. lia.
Qed.

Lemma get_ptr_is_base_plus_offset_witness :
  exists o,
    sky_block_get_offset Example.block2 Example.slot' Example.st =
      Ret 0 (stored Example.slot' o Example.st) /\
    sky_block_get_ptr Example.block2 Example.slot Example.st =
      Ret 0 (stored Example.slot (Int.uint64 (4096 + o)) Example.st) /\
    Int.uint64 (4096 + o) = 4096 + 64 * 2.
Proof.
  assert (Hnn : forall p, p = 100 \/ p = 400 \/ p = 1000 \/ p = 1001 \/
                          p = 4096 \/ p = 64 -> p <> 0) by (intros p; lia).
  assert (Hslot : is_Some (cell_at Example.st !! Example.slot))
    by (exists 77; reflexivity).
  assert (Hslot' : is_Some (cell_at Example.st !! Example.slot'))
    by (exists 77; reflexivity).
  destruct (get_ptr_is_base_plus_offset Example.st Example.block2
              Example.slot Example.slot'
              (mk_block Example.file 2 30 30 201 300 true)
              (mk_data_file 64 [Example.block0; Example.block1;
                                Example.block2; Example.block3] 4 4096)
              (Hnn _ (or_intror (or_introl eq_refl))) eq_refl
              (Hnn _ (or_introl eq_refl)) eq_refl
              (Hnn _ (or_intror (or_intror (or_intror (or_intror
                        (or_introl eq_refl))))))
              (Hnn _ (or_intror (or_intror (or_intror (or_intror
                        (or_intror eq_refl))))))
              (Hnn _ (or_intror (or_intror (or_introl eq_refl)))) Hslot
              (Hnn _ (or_intror (or_intror (or_intror (or_introl eq_refl)))))
              Hslot')
    as (o & Hoffset & Hptr & Hexact).
  exists o. split; [exact Hoffset |]. split; [exact Hptr |].
  apply Hexact; cbn [data block_size index]; lia.
Defined.

(** X8: [sky_block_get_ptr] fails with [-1] and stores [NULL] in [*ptr]
    when the block is null, when it has no data file, when the data
    file is not mapped, and when the offset cannot be computed because
    the block size is zero; nothing else changes. *)
Theorem get_ptr_fails_with_null s block ptr :
  ptr <> 0 -> is_Some (cell_at s !! ptr) ->
  block = 0 \/
  (exists b, block_at s !! block = Some b /\
     (data_file b = 0 \/
      exists df, data_file_at s !! data_file b = Some df /\
                 (data df = 0 \/ block_size df = 0))) ->
  sky_block_get_ptr block ptr s = Ret (-1) (stored ptr 0 s).
Proof.
  intros Hptr Hcell Hwhy. unfold sky_block_get_ptr.
  destruct (Z.eq_dec block 0) as [Hnull | Hblock].
  { rewrite (null block), check_false by done.
    apply error_reset_run; assumption. }
  destruct Hwhy as [? | (b & Hb & Hwhy)]; [done |].
  rewrite (nonnull block), check_true, bind_run, (load_run _ _ b) by done.
  destruct (Z.eq_dec (data_file b) 0) as [Hnofile | Hfile].
  { rewrite (null (data_file b)), check_false by done.
    apply error_reset_run; assumption. }
  destruct Hwhy as [? | (df & Hdf & Hwhy)]; [done |].
  rewrite (nonnull (data_file b)), check_true, bind_run, (load_run _ _ df) by done.
  destruct (Z.eq_dec (data df) 0) as [Hunmapped | Hdata].
  { rewrite (null (data df)), check_false by done.
    apply error_reset_run; assumption. }
  destruct Hwhy as [? | Hzero]; [done |].
  rewrite (nonnull (data df)), check_true by done.
  unfold with_local.
  destruct (fresh_cell (cell_at s)) as [Hnn Hfresh].
  set (a := fresh ({[0]} ∪ dom (cell_at s))) in *.
  assert (Hne : ptr <> a).
  { intros ->. rewrite Hfresh in Hcell. destruct Hcell; discriminate. }
  rewrite bind_run.
  rewrite (get_offset_failure _ block a); try assumption;
    [| cbn [cell_at set_cell_at]; rewrite lookup_insert_eq; eauto
     | right; exists b; split; [exact Hb | right; exists df; split; assumption]].
  cbn [Z.eqb]. rewrite check_false.
  rewrite error_reset_run;
    [| assumption
     | cbn [stored cell_at set_cell_at];
       rewrite !lookup_insert_ne by congruence; exact Hcell].
  unfold stored. cbn [cell_at set_cell_at block_at data_file_at event_at
    paths_at byte_at].
  rewrite insert_insert_eq, leave_local by assumption. reflexivity.
Qed.

Lemma get_ptr_fails_with_null_witness :
  sky_block_get_ptr Example.orphan Example.slot Example.st =
    Ret (-1) (stored Example.slot 0 Example.st).
Proof.
  apply get_ptr_fails_with_null.
  - vm_compute. congruence.
  - vm_compute. eauto.
  - right. exists (mk_block 0 0 0 0 0 0 false). split; [reflexivity |].
    left. reflexivity.
Defined.

(** X9: blocks lie back to back in the mapping: for two blocks of a
    mapped data file with consecutive indices, the pointer stored for
    the second is the pointer stored for the first plus [block_size],
    as long as the second block ends below [2^64]. *)
Theorem get_ptr_consecutive_blocks s block block' ptr b b' df :
  block <> 0 -> block_at s !! block = Some b ->
  block' <> 0 -> block_at s !! block' = Some b' ->
  data_file b <> 0 -> data_file b' = data_file b ->
  data_file_at s !! data_file b = Some df ->
  0 < data df -> 0 < block_size df ->
  0 <= index b -> index b' = index b + 1 ->
  data df + block_size df * index b' < 2 ^ 64 ->
  ptr <> 0 -> is_Some (cell_at s !! ptr) ->
  exists p p',
    sky_block_get_ptr block ptr s = Ret 0 (stored ptr p s) /\
    sky_block_get_ptr block' ptr s = Ret 0 (stored ptr p' s) /\
    p' = p + block_size df.
Proof.
  intros Hblock Hb Hblock' Hb' Hfile Hsame Hdf Hdata Hsize Hidx Hnext Hfits
    Hptr Hcell.
  exists (data df + block_size df * index b),
         (data df + block_size df * index b').
  assert (Hsmall : forall i, 0 <= i <= index b' ->
    Int.uint64 (data df + Int.uint64 (block_size df * i)) =
      data df + block_size df * i).
  { intros i Hi. unfold Int.uint64.
    assert (0 <= block_size df * i <= block_size df * index b') by nia.
    rewrite (Z.mod_small (block_size df * i)) by lia.
    apply Z.mod_small. lia. }
  split; [| split].
  - rewrite (get_ptr_success s block ptr b df) by (assumption || lia).
    rewrite Hsmall by lia. reflexivity.
  - assert (Hfile' : data_file b' <> 0) by (rewrite Hsame; exact Hfile).
    assert (Hdf' : data_file_at s !! data_file b' = Some df)
      by (rewrite Hsame; exact Hdf).
    rewrite (get_ptr_success s block' ptr b' df) by (assumption || lia).
    rewrite Hsmall by lia. reflexivity.
  - rewrite Hnext. lia.
Qed.

Lemma get_ptr_consecutive_blocks_witness :
  exists p p',
    sky_block_get_ptr Example.block1 Example.slot Example.st =
      Ret 0 (stored Example.slot p Example.st) /\
    sky_block_get_ptr Example.block2 Example.slot Example.st =
      Ret 0 (stored Example.slot p' Example.st) /\
    p' = p + 64.
Proof.
  apply (get_ptr_consecutive_blocks Example.st Example.block1 Example.block2
           Example.slot
           (mk_block Example.file 1 30 30 100 200 true)
           (mk_block Example.file 2 30 30 201 300 true)
           (mk_data_file 64 [Example.block0; Example.block1; Example.block2;
                             Example.block3] 4 4096)).
  - unfold Example.block1. lia.
  - reflexivity.
  - unfold Example.block2. lia.
  - reflexivity.
  - cbn. unfold Example.file. lia.
  - reflexivity.
  - reflexivity.
  - cbn. lia.
  - cbn. lia.
  - cbn. lia.
  - reflexivity.
  - cbn. lia.
  - unfold Example.slot. lia.
  - exists 77. reflexivity.
Defined.

(** ** Spanning: termination and bounds *)

(** From a position inside the array the scanning loop stops after at
    most as many rounds as blocks are left, past its start and not
    beyond the end of the array. *)
Lemma span_loop_bounded s df id : forall (fuel : nat) i,
  blocks_valid s df -> block_count df < 2 ^ 32 ->
  0 <= i < block_count df ->
  (Z.to_nat (block_count df - i) <= fuel)%nat ->
  exists i', span_loop fuel df id i s = Ret i' s /\ i < i' <= block_count df.
Proof.
  induction fuel as [| fuel IH]; intros i Hvalid Hcount Hi Hfuel; [lia |].
  cbn [span_loop].
  rewrite !uint32_id by (unfold Int.is_uint32; lia).
  destruct (Z.gtb_spec (i + 1) (block_count df - 1)) as [Hend | Hin].
  - exists (i + 1). split; [reflexivity | lia].
  - destruct (Hvalid (i + 1)) as (p & b & Hp & Hnn & Hb); [lia |].
    rewrite bind_run, (array_get_run _ _ p) by exact Hp.
    rewrite bind_run, (load_run _ _ b) by assumption.
    destruct (id =? min_object_id b); cbn [negb].
    + destruct (IH (i + 1)) as (i' & Hrun & Hbound); try assumption; try lia.
      exists i'. split; [exact Hrun | lia].
    + exists (i + 1). split; [reflexivity | lia].
Qed.

(** X10: on a block that lies inside a block array whose entries are all
    valid, [sky_block_get_span_count] terminates within
    [block_count - index] rounds of its loop, succeeds, and stores a
    count of at least 1 and at most the number of blocks from
    [block.index] to the end of the array, whether the block is spanned
    or not and whatever the object ids are. *)
Theorem span_count_terminates_in_bounds s fuel block count b df :
  block <> 0 -> block_at s !! block = Some b ->
  data_file b <> 0 -> data_file_at s !! data_file b = Some df ->
  count <> 0 -> is_Some (cell_at s !! count) ->
  blocks_valid s df -> block_count df < 2 ^ 32 ->
  0 <= index b < block_count df ->
  (Z.to_nat (block_count df - index b) <= fuel)%nat ->
  exists c,
    sky_block_get_span_count fuel block count s = Ret 0 (stored count c s) /\
    1 <= c <= block_count df - index b.
Proof.
  intros Hblock Hb Hfile Hdf Hcount Hcell Hvalid Hbc Hidx Hfuel.
  unfold sky_block_get_span_count.
  rewrite (nonnull block), check_true, bind_run, (load_run _ _ b) by done.
  rewrite (nonnull (data_file b)), check_true by done.
  rewrite (nonnull count), check_true by done.
  rewrite bind_run, (load_run _ _ df) by done.
  destruct (spanned b); cbn [negb].
  - destruct (span_loop_bounded s df (min_object_id b) fuel (index b))
      as (i' & Hrun & Hbound); try assumption.
    exists (i' - index b). rewrite !bind_run, Hrun, assign_run by done.
    rewrite uint32_id by (unfold Int.is_uint32; lia).
    split; [reflexivity | lia].
  - exists 1. rewrite bind_run, assign_run by done.
    split; [reflexivity | lia].
Qed.

Lemma span_count_terminates_in_bounds_witness :
  exists c,
    sky_block_get_span_count 3 Example.block1 Example.slot Example.st =
      Ret 0 (stored Example.slot c Example.st) /\
    1 <= c <= 3.
Proof.
  apply (span_count_terminates_in_bounds Example.st 3 Example.block1
           Example.slot
           (mk_block Example.file 1 30 30 100 200 true)
           (mk_data_file 64 [Example.block0; Example.block1; Example.block2;
                             Example.block3] 4 4096)).
  - unfold Example.block1. lia.
  - reflexivity.
  - cbn. unfold Example.file. lia.
  - reflexivity.
  - unfold Example.slot. lia.
  - exists 77. reflexivity.
  - intros j Hj. cbn [block_count] in Hj. cbn [blocks].
    assert (Hcases : j = 0 \/ j = 1 \/ j = 2 \/ j = 3) by lia.
    destruct Hcases as [-> | [-> | [-> | ->]]].
    + exists Example.block0, Example.header.
      repeat split; [unfold Example.block0; lia].
    + exists Example.block1, (mk_block Example.file 1 30 30 100 200 true).
      repeat split; [unfold Example.block1; lia].
    + exists Example.block2, (mk_block Example.file 2 30 30 201 300 true).
      repeat split; [unfold Example.block2; lia].
    + exists Example.block3, (mk_block Example.file 3 40 50 1 2 false).
      repeat split; [unfold Example.block3; lia].
  - cbn. lia.
  - cbn. lia.
  - cbn. lia.
Defined.

(** ** Locating a path: the cases that return *)

Lemma stored_twice p v w s : stored p v (stored p w s) = stored p v s.
Proof.
  unfold stored. cbn [cell_at set_cell_at block_at data_file_at event_at
    paths_at byte_at]. rewrite insert_insert_eq. reflexivity.
Qed.

(** X11: [sky_block_get_path_ptr] returns success in two cases: on a
    block without path records it stores [NULL] (no such path), and on
    a block whose first record is for the wanted object it stores the
    address of that record.  One round of the loop is enough. *)
Theorem get_path_ptr_first_or_none fuel s block id ret ps :
  block <> 0 -> 0 < id -> ret <> 0 -> is_Some (cell_at s !! ret) ->
  paths_at s !! block = Some ps ->
  (ps = [] ->
   sky_block_get_path_ptr (S fuel) block id ret s = Ret 0 (stored ret 0 s)) /\
  (forall p rest, ps = p :: rest -> path_object_id p = id ->
   sky_block_get_path_ptr (S fuel) block id ret s =
     Ret 0 (stored ret (path_ptr p) s)).
Proof.
  intros Hblock Hid Hret Hcell Hpaths. split.
  - intros ->. apply get_path_ptr_empty; assumption.
  - intros p rest -> <-.
    rewrite (get_path_ptr_first fuel s block ret p rest) by assumption.
    rewrite stored_twice. reflexivity.
Qed.

Lemma get_path_ptr_first_or_none_witness :
  sky_block_get_path_ptr 1 Example.block0 5 Example.slot Example.st =
    Ret 0 (stored Example.slot 4128 Example.st).
Proof.
  refine (proj2 (get_path_ptr_first_or_none 0 Example.st Example.block0 5
                   Example.slot
                   [mk_path 5 4128 10; mk_path 9 4138 12; mk_path 20 4150 10]
                   _ _ _ _ _)
            (mk_path 5 4128 10) [mk_path 9 4138 12; mk_path 20 4150 10]
            eq_refl eq_refl).
  - unfold Example.block0. lia.
  - lia.
  - unfold Example.slot. lia.
  - exists 77. reflexivity.
  - reflexivity.
Defined.

(** X12: when the path iterator cannot be bound to the block,
    [sky_block_get_path_ptr] fails with [-1] and stores [NULL] in
    [*ret]; nothing else changes. *)
Theorem get_path_ptr_unbound s fuel block id ret :
  block <> 0 -> 0 < id -> ret <> 0 -> is_Some (cell_at s !! ret) ->
  paths_at s !! block = None ->
  sky_block_get_path_ptr fuel block id ret s = Ret (-1) (stored ret 0 s).
Proof.
  intros Hblock Hid Hret Hcell Hpaths. unfold sky_block_get_path_ptr.
  rewrite (nonnull block), check_true by done.
  rewrite (proj2 (Z.ltb_lt 0 id)), check_true by done.
  rewrite bind_run. unfold sky_path_iterator_create. rewrite ret_run.
  rewrite bind_run. unfold sky_path_iterator_set_block. rewrite Hpaths.
  cbn [Z.eqb]. rewrite check_false.
  cbn [sky_path_iterator_free]. rewrite bind_run, ret_run.
  apply error_reset_run; assumption.
Qed.

Lemma get_path_ptr_unbound_witness :
  sky_block_get_path_ptr 0 Example.block1 30 Example.slot Example.st =
    Ret (-1) (stored Example.slot 0 Example.st).
Proof.
  apply get_path_ptr_unbound.
  - unfold Example.block1. lia.
  - lia.
  - unfold Example.slot. lia.
  - exists 77. reflexivity.
  - reflexivity.
Defined.

(** ** Splitting: what the call leaves behind *)

Lemma same_but_none s s' : same_but (fun _ => False) s s' -> s' = s.
Proof.
  destruct s, s'. unfold same_but. cbn.
  intros (-> & -> & -> & -> & -> & Hcells). f_equal.
  apply map_eq. intros a. apply Hcells. tauto.
Qed.

(** X14: with the block or the event absent,
    [sky_block_split_with_event] returns [-1] before it has initialised
    [*ret]: the store, and with it whatever [*ret] held, is as before. *)
Theorem split_with_event_absent s fuel block event ret :
  block = 0 \/ event = 0 ->
  sky_block_split_with_event fuel block event ret s = Ret (-1) s.
Proof.
  intros Hwhy. unfold sky_block_split_with_event.
  destruct (Z.eq_dec block 0) as [Hnull | Hblock].
  - rewrite (null block), check_false by done. reflexivity.
  - destruct Hwhy as [? | Hevent]; [done |].
    rewrite (nonnull block), check_true by done.
    rewrite (null event), check_false by done. reflexivity.
Qed.

Lemma split_with_event_absent_witness :
  sky_block_split_with_event 1 Example.block0 0 Example.slot Example.st =
    Ret (-1) Example.st /\
  cell_at Example.st !! Example.slot = Some 77.
Proof.
  split; [| reflexivity].
  apply split_with_event_absent. right. reflexivity.
Defined.

(** X15: with a block and an event, [sky_block_split_with_event] sets
    [*ret] to [NULL] and does nothing else that lasts: however the call
    ends, and whatever the block and the event hold, the store it
    leaves is the original one with [NULL] in [*ret].  No path record is
    moved, no block is created, and no target block is ever named. *)
Theorem split_with_event_only_clears_ret s fuel block event ret :
  block <> 0 -> event <> 0 -> ret <> 0 -> is_Some (cell_at s !! ret) ->
  final (sky_block_split_with_event fuel block event ret s) = stored ret 0 s.
Proof.
  intros Hblock Hevent Hret Hcell. unfold sky_block_split_with_event.
  rewrite (nonnull block), check_true by done.
  rewrite (nonnull event), check_true by done.
  rewrite bind_run, assign_run by done.
  apply same_but_none.
  match goal with |- same_but _ ?s1 (final (?m ?s1)) =>
    assert (Hm : writes_only (fun _ => False) m); [| apply Hm]
  end.
  unfold sky_path_iterator_create.
  footprint; try apply writes_only_iterator_set_block.
  apply writes_only_with_local. intros ptr.
  footprint; try apply writes_only_iterator_free.
  apply writes_only_path_loop. right. reflexivity.
Qed.

Lemma split_with_event_only_clears_ret_witness :
  final (sky_block_split_with_event 7 Example.block0 Example.event
           Example.slot Example.st) = stored Example.slot 0 Example.st.
Proof.
  apply split_with_event_only_clears_ret.
  - unfold Example.block0. lia.
  - unfold Example.event. lia.
  - unfold Example.slot. lia.
  - exists 77. reflexivity.
Defined.

(** ** Lifecycle *)

Lemma fresh_block (m : gmap Z sky_block) :
  let p := fresh ({[0]} ∪ dom m) in p <> 0 /\ m !! p = None.
Proof.
  intros p. pose proof (is_fresh ({[0]} ∪ dom m)) as Hfresh. fold p in Hfresh.
  split.
  - intros H0. apply Hfresh. rewrite H0. apply elem_of_union_l.
    apply elem_of_singleton. reflexivity.
  - apply not_elem_of_dom. intros Hin. apply Hfresh.
    apply elem_of_union_r, Hin.
Qed.

Lemma create_run data_file s :
  let p := fresh ({[0]} ∪ dom (block_at s)) in
  sky_block_create true data_file s =
    Ret p (set_block_at
             (<[p := mk_block data_file 0 0 0 0 0 false]> (block_at s)) s).
Proof.
  intros p. destruct (fresh_block (block_at s)) as [Hnn Hfresh]. fold p in Hnn.
  unfold sky_block_create. rewrite bind_run. unfold calloc_block. fold p.
  rewrite (nonnull p), check_true by exact Hnn.
  rewrite bind_run,
    (modify_block_run p _ zeroed _ Hnn (lookup_insert_eq _ _ _)).
  rewrite ret_run, set_block_at_twice. cbn [block_at set_block_at].
  rewrite insert_insert_eq. reflexivity.
Qed.

Lemma free_run p b s :
  p <> 0 -> block_at s !! p = Some b ->
  sky_block_free p s = Ret tt (set_block_at (delete p (block_at s)) s).
Proof.
  intros Hnn Hb. unfold sky_block_free.
  rewrite (nonnull p) by exact Hnn.
  rewrite bind_run, (modify_block_run p _ b s Hnn Hb).
  unfold free_block. cbn [block_at set_block_at].
  rewrite lookup_insert_eq, delete_insert_eq, set_block_at_twice. reflexivity.
Qed.

Lemma set_block_at_same s : set_block_at (block_at s) s = s.
Proof. destruct s. reflexivity. Qed.

(** X16: [sky_block_create] yields, when memory is available, a
    non-null pointer to a descriptor that did not exist before, whose
    [data_file] is the argument (null included: it is not tested) and
    whose other fields are zero; every other descriptor and every data
    file are as before, so the block is entered in no block array.
    When memory is not available it yields [NULL] and changes nothing. *)
Theorem create_yields_fresh_zeroed_block data_file s :
  (exists p,
     sky_block_create true data_file s =
       Ret p (set_block_at
                (<[p := mk_block data_file 0 0 0 0 0 false]> (block_at s)) s) /\
     p <> 0 /\ block_at s !! p = None) /\
  sky_block_create false data_file s = Ret 0 s.
Proof.
  split; [| reflexivity].
  exists (fresh ({[0]} ∪ dom (block_at s))).
  split; [apply create_run | apply fresh_block].
Qed.

(** X17: releasing with [sky_block_free] what [sky_block_create] has
    returned gives back the store from before the creation, whether the
    allocation succeeded or returned [NULL]. *)
Theorem create_then_free_restores available data_file s :
  (block ← sky_block_create available data_file; sky_block_free block) s =
    Ret tt s.
Proof.
  rewrite bind_run. destruct available; [| reflexivity].
  destruct (fresh_block (block_at s)) as [Hnn Hfresh].
  rewrite create_run.
  rewrite (free_run _ (mk_block data_file 0 0 0 0 0 false))
    by (assumption || apply lookup_insert_eq).
  cbn [block_at set_block_at]. rewrite set_block_at_twice.
  rewrite delete_insert_id by exact Hfresh. rewrite set_block_at_same.
  reflexivity.
Qed.

(** X18: [sky_block_free] removes the descriptor it is given and no
    other, and leaves the data files as they are; given [NULL] it does
    nothing. *)
Theorem free_removes_one_block s block b :
  block <> 0 -> block_at s !! block = Some b ->
  sky_block_free 0 s = Ret tt s /\
  (exists s',
     sky_block_free block s = Ret tt s' /\
     block_at s' !! block = None /\
     (forall p, p <> block -> block_at s' !! p = block_at s !! p) /\
     data_file_at s' = data_file_at s).
Proof.
  intros Hnn Hb. split; [reflexivity |].
  eexists. split; [apply (free_run block b); assumption |].
  cbn [block_at data_file_at set_block_at].
  split; [apply lookup_delete_eq |].
  split; [intros p Hp; apply lookup_delete_ne; congruence |].
  reflexivity.
Qed.

Lemma free_removes_one_block_witness :
  exists s',
    sky_block_free Example.orphan Example.st = Ret tt s' /\
    block_at s' !! Example.orphan = None /\
    block_at s' !! Example.block0 = Some Example.header.
Proof.
  destruct (free_removes_one_block Example.st Example.orphan
              (mk_block 0 0 0 0 0 0 false))
    as (_ & s' & Hrun & Hgone & Hothers & _).
  - unfold Example.orphan. lia.
  - reflexivity.
  - exists s'. split; [exact Hrun |]. split; [exact Hgone |].
    rewrite Hothers by (unfold Example.block0, Example.orphan; lia).
    reflexivity.
Defined.

(** X19: a block fresh from [sky_block_create] has index 0: in a data
    file with a nonzero block size its offset is 0, the offset of the
    first block of the file; created with a null data file, the offset
    query on it fails. *)
Theorem created_block_sits_at_offset_zero s data_file offset :
  offset <> 0 -> is_Some (cell_at s !! offset) ->
  exists p s1,
    sky_block_create true data_file s = Ret p s1 /\
    (data_file = 0 ->
     sky_block_get_offset p offset s1 = Ret (-1) (stored offset 0 s1)) /\
    (forall df, data_file <> 0 ->
       data_file_at s !! data_file = Some df -> block_size df <> 0 ->
       sky_block_get_offset p offset s1 = Ret 0 (stored offset 0 s1)).
Proof.
  intros Hoffset Hcell.
  destruct (fresh_block (block_at s)) as [Hnn Hfresh].
  eexists _, _. split; [apply create_run |]. split.
  - intros ->. apply get_offset_failure; [assumption | exact Hcell |].
    right. eexists. split; [apply lookup_insert_eq |]. left. reflexivity.
  - intros df Hfile Hdf Hsize.
    rewrite (get_offset_success _ _ offset
               (mk_block data_file 0 0 0 0 0 false) df);
      try assumption; try apply lookup_insert_eq.
    cbn [index]. rewrite Z.mul_0_r. reflexivity.
Qed.

Lemma created_block_sits_at_offset_zero_witness :
  exists p s1,
    sky_block_create true Example.file Example.st = Ret p s1 /\
    sky_block_get_offset p Example.slot s1 = Ret 0 (stored Example.slot 0 s1).
Proof.
  destruct (created_block_sits_at_offset_zero Example.st Example.file
              Example.slot)
    as (p & s1 & Hcreate & _ & Hoffset).
  - unfold Example.slot. lia.
  - exists 77. reflexivity.
  - exists p, s1. split; [exact Hcreate |].
    apply (Hoffset (mk_data_file 64 [Example.block0; Example.block1;
                                     Example.block2; Example.block3] 4 4096)).
    + unfold Example.file. lia.
    + reflexivity.
    + cbn. lia.
Defined.

(** ** The header codec loses nothing *)

(** X20: two headers whose fields fit their types and that
    [sky_block_pack] encodes to the same 32 bytes have the same four
    fields. *)
Theorem pack_is_injective host s src src' ptr sz h h' :
  src <> 0 -> block_at s !! src = Some h -> block_in_range h ->
  src' <> 0 -> block_at s !! src' = Some h' -> block_in_range h' ->
  ptr <> 0 -> mapped (byte_at s) ptr 32 ->
  sz = 0 \/ is_Some (cell_at s !! sz) ->
  exists s1 s2,
    sky_block_pack host src ptr sz s = Ret 0 s1 /\
    sky_block_pack host src' ptr sz s = Ret 0 s2 /\
    (peek (byte_at s1) ptr 32 = peek (byte_at s2) ptr 32 ->
     min_object_id h = min_object_id h' /\
     max_object_id h = max_object_id h' /\
     min_timestamp h = min_timestamp h' /\
     max_timestamp h = max_timestamp h').
Proof.
  intros Hsrc Hh Hrange Hsrc' Hh' Hrange' Hptr Hmapped Hsz.
  eexists _, _.
  split; [apply (pack_run host s src ptr sz h); assumption |].
  split; [apply (pack_run host s src' ptr sz h'); assumption |].
  rewrite !byte_at_reported. cbn [byte_at set_byte_at].
  rewrite (peek_blit (wire_header h)), (peek_blit (wire_header h')).
  intros Hsame.
  assert (Hwire : wire_header h = wire_header h') by congruence.
  pose proof (decoded_wire_header h h Hrange) as Hd.
  pose proof (decoded_wire_header h' h Hrange') as Hd'.
  rewrite Hwire, Hd' in Hd. injection Hd as <- <- <- <-.
  repeat split; reflexivity.
Qed.

Lemma pack_is_injective_witness :
  exists s1 s2,
    sky_block_pack Endian.LittleEndian Example.block1 Example.buffer
      Example.slot Example.st = Ret 0 s1 /\
    sky_block_pack Endian.LittleEndian Example.block2 Example.buffer
      Example.slot Example.st = Ret 0 s2 /\
    peek (byte_at s1) Example.buffer 32 <> peek (byte_at s2) Example.buffer 32.
Proof.
  destruct (pack_is_injective Endian.LittleEndian Example.st
              Example.block1 Example.block2 Example.buffer Example.slot
              (mk_block Example.file 1 30 30 100 200 true)
              (mk_block Example.file 2 30 30 201 300 true))
    as (s1 & s2 & Hrun1 & Hrun2 & Hinj).
  - unfold Example.block1. lia.
  - reflexivity.
  - unfold block_in_range, Int.is_uint32, Int.is_uint64, Int.is_int64.
    cbn. lia.
  - unfold Example.block2. lia.
  - reflexivity.
  - unfold block_in_range, Int.is_uint32, Int.is_uint64, Int.is_int64.
    cbn. lia.
  - unfold Example.buffer. lia.
  - apply example_buffer_mapped.
  - right. exists 77. reflexivity.
  - exists s1, s2. split; [exact Hrun1 |]. split; [exact Hrun2 |].
    intros Hsame. destruct (Hinj Hsame) as (_ & _ & Hts & _).
    cbn in Hts. lia.
Defined.
